(** * SLASupportTreeIGL: clustering of support points and normals on a mesh

    A shallow embedding of [src/libslic3r/SLA/SLASupportTreeIGL.cpp]:
    the [cluster] functions (region growing over a spatial index) and the
    [normals] function (normal of the mesh at a point, averaged over the
    neighbouring faces when the point sits on a vertex or an edge).

    Numbers.  A C++ [double] is a binary64 float: Rocq's primitive [float],
    with the IEEE operations of [PrimFloat].  An [unsigned] payload or
    [max_points] is an [N]; a container size is the [nat] length of a list;
    the one place where the source narrows a [size_t] to an [int] is written
    out with its wrap-around in [fill_count].

    Effects.  The index that [cluster] empties is passed from round to
    round.  The recursion of [group] and the loop of [cluster] have no bound
    in the source: they run on fuel, and [None] stands for a run that the
    fuel did not suffice for.  The one request to the allocator that is
    sized by an argument, the [reserve(max_points)] at the start of every
    query, is explicit in the module [Alloc], where a run can also end
    with [std::bad_alloc].  The cancellation check [thr] of [normals]
    either throws at every call or at none; a call that it cancels yields
    [Cancelled].  The rows of [normals] do not depend on each other, so the
    parallel loop is a map over the query indices. *)

From Stdlib Require Import ZArith Floats.
From Stdlib Require Uint63.
From stdpp Require Import base decidable option list sorting.
From Equations Require Import Equations.

#[local] Set Warnings "-inexact-float".

Local Open Scope Z_scope.

(** ** Vectors of three doubles (Eigen's [Vec3d]) *)

Module Vec.

Record Vec3d : Type := mk { x : float; y : float; z : float }.

Definition Zero : Vec3d := mk 0 0 0.

(** [a - b], coefficient by coefficient. *)
Definition sub (a b : Vec3d) : Vec3d :=
  mk (x a - x b)%float (y a - y b)%float (z a - z b)%float.

Definition add (a b : Vec3d) : Vec3d :=
  mk (x a + x b)%float (y a + y b)%float (z a + z b)%float.

(** [s * v] and [v / s] for a scalar [s]. *)
Definition scale (s : float) (v : Vec3d) : Vec3d :=
  mk (s * x v)%float (s * y v)%float (s * z v)%float.

Definition divs (v : Vec3d) (s : float) : Vec3d :=
  mk (x v / s)%float (y v / s)%float (z v / s)%float.

(** Eigen reduces a fixed vector of three coefficients by halves:
    the first coefficient, plus the sum of the other two. *)
Definition redux3 (a b c : float) : float := (a + (b + c))%float.

Definition sum (v : Vec3d) : float := redux3 (x v) (y v) (z v).

Definition dot (a b : Vec3d) : float :=
  redux3 (x a * x b)%float (y a * y b)%float (z a * z b)%float.

Definition squaredNorm (v : Vec3d) : float := dot v v.

Definition cross (a b : Vec3d) : Vec3d :=
  mk (y a * z b - z a * y b)%float
     (z a * x b - x a * z b)%float
     (x a * y b - y a * x b)%float.

(** [v.normalized()]: the vector itself when its squared norm is not
    positive, and the vector over its norm otherwise. *)
Definition normalized (v : Vec3d) : Vec3d :=
  let n2 := squaredNorm v in
  if (0 <? n2)%float then divs v (sqrt n2) else v.

(** Value equality of two vectors, as [==] on their coefficients. *)
Definition eqb (a b : Vec3d) : bool :=
  (x a =? x b)%float && (y a =? y b)%float && (z a =? z b)%float.

End Vec.

Abbreviation Vec3d := Vec.Vec3d.

(** [template<class Vec> double distance(const Vec& pp1, const Vec& pp2)] *)
Definition distance (pp1 pp2 : Vec3d) : float :=
  let p := Vec.sub pp2 pp1 in
  sqrt (Vec.dot p p).

(** ** The spatial index

    [SpatElement] is a point with its payload index.  [Index3D] is an
    R-tree of the Boost library; it is kept here as the list of the
    elements it stores, and its iteration order is the order of the
    list. *)

Definition SpatElement : Type := Vec3d * N.
Definition Elems : Type := list SpatElement.
Definition Index3D : Type := list SpatElement.
Definition ClusteredPoints : Type := list (list N).

(** Modelled from the spec: the operations of the R-tree, whose code is not
    part of the sources, by the contract of the point index: [insert];
    [remove] of an exact match; [nearest], the [k] nearest elements in
    ascending order of distance; [satisfies], all elements that meet a
    predicate. *)
Module Index.

(** Two stored values are the same when point and payload are equal. *)
Definition equal_to (a b : SpatElement) : bool :=
  Vec.eqb a.1 b.1 && (a.2 =? b.2)%N.

Definition insert (el : SpatElement) (s : Index3D) : Index3D := s ++ [el].

(** [remove] takes out one stored value equal to [el], if there is one. *)
Fixpoint remove (el : SpatElement) (s : Index3D) : Index3D :=
  match s with
  | [] => []
  | e :: s' => if equal_to el e then s' else e :: remove el s'
  end.

(** The squared distance that the nearest-neighbour search compares. *)
Definition comparable_distance (q : Vec3d) (e : SpatElement) : float :=
  let p := Vec.sub e.1 q in Vec.dot p p.

(** The stored values in the order of their distance to [q], nearest
    first; among values at the same distance, the one stored later comes
    first. *)
Fixpoint insert_nearer (q : Vec3d) (e : SpatElement) (l : Elems) : Elems :=
  match l with
  | [] => [e]
  | e' :: l' =>
      if (comparable_distance q e' <=? comparable_distance q e)%float
      then e' :: insert_nearer q e l'
      else e :: l
  end.

Definition by_distance (q : Vec3d) (s : Index3D) : Elems :=
  foldr (insert_nearer q) [] s.

(** [bgi::nearest(q, k)]: the [k] stored values nearest to [q], nearest
    first. *)
Definition nearest (s : Index3D) (q : Vec3d) (k : N) : Elems :=
  take (N.to_nat k) (by_distance q s).

(** [bgi::satisfies(fn)]: the stored values on which [fn] holds. *)
Definition satisfies (s : Index3D) (fn : SpatElement -> bool) : Elems :=
  filter (fun e => Is_true (fn e)) s.

End Index.

(** ** The clustering engine *)

(** [cmp]: the order of two elements is the order of their payloads. *)
Definition cmp (e1 e2 : SpatElement) : bool := (e1.2 <? e2.2)%N.

Definition payload_le : relation SpatElement := fun e1 e2 => (e1.2 <= e2.2)%N.

#[global] Instance payload_le_dec e1 e2 : Decision (payload_le e1 e2).
Proof. unfold payload_le. apply _. Defined.

(** [std::sort(first, last, cmp)].  Elements of equal payload are in the
    library's order; in an index built from a point function they are
    equal, and their order does not show. *)
Definition sort_cmp (l : Elems) : Elems := merge_sort payload_le l.

(** [std::set_difference(first1, last1, first2, last2, out, cmp)]: one pass
    over two ranges sorted by [cmp]. *)
Fixpoint set_difference (l1 : Elems) : Elems -> Elems :=
  fix go (l2 : Elems) : Elems :=
    match l1, l2 with
    | [], _ => []
    | _ :: _, [] => l1
    | e1 :: l1', e2 :: l2' =>
        if cmp e1 e2 then e1 :: set_difference l1' l2
        else if cmp e2 e1 then go l2'
        else set_difference l1' l2'
    end.

(** A [size_t] difference wraps at [2^64]; [int(...)] keeps the low 32 bits,
    read as a signed number.  (The sum of two vector sizes stays far below
    [2^64]: no vector of 32-byte elements has more than [2^59] of them.) *)
Definition size_t (v : Z) : Z := v mod 2 ^ 64.
Definition to_int (v : Z) : Z := (v + 2 ^ 31) mod 2 ^ 32 - 2 ^ 31.

Definition vec_size (l : Elems) : Z := Z.of_nat (length l).

(** [int c = max_points && newpts.size() + cluster.size() > max_points ?
            int(max_points - cluster.size()) : int(newpts.size());] *)
Definition fill_count (max_points : N) (newpts cluster : Elems) : Z :=
  if negb (max_points =? 0)%N
     && (Z.of_N max_points <? vec_size newpts + vec_size cluster)
  then to_int (size_t (Z.of_N max_points - vec_size cluster))
  else to_int (vec_size newpts).

Section Engine.

Variable qfn : Index3D -> SpatElement -> Elems.
Variable max_points : N.

(** One round of the loop body of [group] for the frontier point [p]:
    the cluster after the first [c] new points were merged in, the new
    points, and whether [group] calls itself on them.  The source reads
    [newpts.begin() + c] unchecked; [fill_count_exact] below gives
    [0 <= c <= newpts.size()] for a cluster within the cap. *)
Definition group_step (sindex : Index3D) (p : SpatElement) (cluster : Elems)
  : Elems * Elems * bool :=
  let tmp := sort_cmp (qfn sindex p) in
  let newpts := set_difference tmp cluster in
  let c := fill_count max_points newpts cluster in
  let cluster' := sort_cmp (cluster ++ take (Z.to_nat c) newpts) in
  (cluster', newpts,
   negb (bool_decide (newpts = []))
   && ((max_points =? 0)%N || (vec_size cluster' <? Z.of_N max_points))).

(** [group(pts, cluster)], the recursive lambda.  The recursion of the
    source has no bound of its own: [fuel] bounds its depth, and [None]
    says that the bound was reached. *)
Fixpoint group (fuel : nat) (sindex : Index3D) (pts cluster : Elems)
  : option Elems :=
  match fuel with
  | O => None
  | S fuel' =>
      (fix each (pts cluster : Elems) : option Elems :=
         match pts with
         | [] => Some cluster
         | p :: pts' =>
             let '(cluster', newpts, again) := group_step sindex p cluster in
             if again
             then match group fuel' sindex newpts cluster' with
                  | Some cluster'' => each pts' cluster''
                  | None => None
                  end
             else each pts' cluster'
         end) pts cluster
  end.

(** The loop [for(auto it = sindex.begin(); it != sindex.end();)]: each
    round grows a cluster from the first stored element, removes the
    members of the cluster from the index and appends the cluster to
    [clusters].  [fuel] bounds the number of rounds. *)
Fixpoint clusters_loop (fuel : nat) (sindex : Index3D)
         (clusters : list Elems) : option (list Elems) :=
  match fuel with
  | O => None
  | S fuel' =>
      match sindex with
      | [] => Some clusters
      | it :: _ =>
          match group fuel sindex [it] [] with
          | Some cluster =>
              let sindex' := foldl (fun s c => Index.remove c s) sindex cluster in
              clusters_loop fuel' sindex' (clusters ++ [cluster])
          | None => None
          end
      end
  end.

(** [ClusteredPoints cluster(Index3D& sindex, unsigned max_points, qfn)] *)
Definition cluster_index (fuel : nat) (sindex : Index3D)
  : option ClusteredPoints :=
  match clusters_loop fuel sindex [] with
  | Some clusters => Some (map (fun cluster => map snd cluster) clusters)
  | None => None
  end.

End Engine.

Arguments group : simpl never.
Arguments clusters_loop : simpl never.

(** ** The two query functions *)

(** The loop of [distance_queryfn] that erases the elements farther than
    [dist]: [erase] hands back the position after the erased element and
    the loop header then steps over that one. *)
Fixpoint erase_far (p : Vec3d) (dist : float) (tmp : Elems) : Elems :=
  match tmp with
  | [] => []
  | e :: rest =>
      if (dist <? distance p e.1)%float
      then match rest with
           | [] => []
           | e' :: rest' => e' :: erase_far p dist rest'
           end
      else e :: erase_far p dist rest
  end.

(** What [distance_queryfn] returns: the [max_points] nearest elements,
    after the erase loop.  The reservation that it starts with is in
    [Alloc.distance_queryfn] below. *)
Definition distance_queryfn (sindex : Index3D) (p : SpatElement)
           (dist : float) (max_points : N) : Elems :=
  erase_far p.1 dist (Index.nearest sindex p.1 max_points).

(** What the query function of the predicate strategy returns; its
    reservation is in [Alloc.predicate_queryfn] below. *)
Definition predicate_queryfn
           (predicate : SpatElement -> SpatElement -> bool)
           (sindex : Index3D) (p : SpatElement) : Elems :=
  Index.satisfies sindex (fun e => predicate p e).

(** [for(auto idx : indices) sindex.insert(std::make_pair(pointfn(idx), idx));] *)
Definition build_index (indices : list N) (pointfn : N -> Vec3d) : Index3D :=
  foldl (fun s idx => Index.insert (pointfn idx, idx) s) [] indices.

(** [cluster(indices, pointfn, dist, max_points)] *)
Definition cluster_dist (fuel : nat) (indices : list N) (pointfn : N -> Vec3d)
           (dist : float) (max_points : N) : option ClusteredPoints :=
  cluster_index (fun s p => distance_queryfn s p dist max_points) max_points
                fuel (build_index indices pointfn).

(** [cluster(indices, pointfn, predicate, max_points)] *)
Definition cluster_pred (fuel : nat) (indices : list N) (pointfn : N -> Vec3d)
           (predicate : SpatElement -> SpatElement -> bool)
           (max_points : N) : option ClusteredPoints :=
  cluster_index (predicate_queryfn predicate) max_points
                fuel (build_index indices pointfn).

(** ** The callers' view: one entry point over the two query strategies *)

Inductive Query : Type :=
| ByDistance (dist : float)
| ByPredicate (predicate : SpatElement -> SpatElement -> bool).

Definition cluster (fuel : nat) (indices : list N) (pointfn : N -> Vec3d)
           (q : Query) (max_points : N) : option ClusteredPoints :=
  match q with
  | ByDistance dist => cluster_dist fuel indices pointfn dist max_points
  | ByPredicate predicate => cluster_pred fuel indices pointfn predicate max_points
  end.

Definition query_fn (q : Query) (max_points : N)
  : Index3D -> SpatElement -> Elems :=
  match q with
  | ByDistance dist => fun s p => distance_queryfn s p dist max_points
  | ByPredicate predicate => predicate_queryfn predicate
  end.

(** ** The reservations of the queries

    Both query functions start with [tmp.reserve(max_points)], a request
    to the allocator for room for [max_points] elements, which throws
    [std::bad_alloc] when it is not granted; nothing in the file catches
    it, so it leaves [cluster].  The definitions above are the queries and
    the engine of a run in which every request is granted: what such a run
    returns, if it returns.  In the module [Alloc] the allocator is
    explicit: [heap] is the largest number of elements that it has room
    for, and the queries, the engine and the entry points are those of the
    source with their reservations. *)

(** How a call ends: it returns, [std::bad_alloc] leaves it, or the fuel
    did not suffice to see its end. *)
Inductive ending (A : Type) : Type :=
| Returns (a : A)
| Throws
| Unfinished.
Arguments Returns {A} a.
Arguments Throws {A}.
Arguments Unfinished {A}.

(** The ending of a run in which every request is granted. *)
Definition granted {A : Type} (r : option A) : ending A :=
  match r with
  | Some a => Returns a
  | None => Unfinished
  end.

Module Alloc.

(** [tmp.reserve(n)]: is the request granted? *)
Definition reserve (heap n : N) : bool := (n <=? heap)%N.

(** [distance_queryfn(sindex, p, dist, max_points)]; [None]: it throws. *)
Definition distance_queryfn (heap : N) (sindex : Index3D) (p : SpatElement)
           (dist : float) (max_points : N) : option Elems :=
  if reserve heap max_points
  then Some (erase_far p.1 dist (Index.nearest sindex p.1 max_points))
  else None.

(** The query function of the predicate strategy. *)
Definition predicate_queryfn (heap : N) (max_points : N)
           (predicate : SpatElement -> SpatElement -> bool)
           (sindex : Index3D) (p : SpatElement) : option Elems :=
  if reserve heap max_points
  then Some (Index.satisfies sindex (fun e => predicate p e))
  else None.

Section Engine.

Variable qfn : Index3D -> SpatElement -> option Elems.
Variable max_points : N.

(** [group(pts, cluster)]: a query that throws leaves [group], through
    all its calls of itself; a query that answers [tmp] is followed by the
    loop body, [group_step] on that answer. *)
Fixpoint group (fuel : nat) (sindex : Index3D) (pts cluster : Elems)
  : ending Elems :=
  match fuel with
  | O => Unfinished
  | S fuel' =>
      (fix each (pts cluster : Elems) : ending Elems :=
         match pts with
         | [] => Returns cluster
         | p :: pts' =>
             match qfn sindex p with
             | None => Throws
             | Some tmp =>
                 let '(cluster', newpts, again) :=
                   group_step (fun _ _ => tmp) max_points sindex p cluster in
                 if again
                 then match group fuel' sindex newpts cluster' with
                      | Returns cluster'' => each pts' cluster''
                      | Throws => Throws
                      | Unfinished => Unfinished
                      end
                 else each pts' cluster'
             end
         end) pts cluster
  end.

(** The loop over the index. *)
Fixpoint clusters_loop (fuel : nat) (sindex : Index3D)
         (clusters : list Elems) : ending (list Elems) :=
  match fuel with
  | O => Unfinished
  | S fuel' =>
      match sindex with
      | [] => Returns clusters
      | it :: _ =>
          match group fuel sindex [it] [] with
          | Returns cluster =>
              let sindex' := foldl (fun s c => Index.remove c s) sindex cluster in
              clusters_loop fuel' sindex' (clusters ++ [cluster])
          | Throws => Throws
          | Unfinished => Unfinished
          end
      end
  end.

(** [ClusteredPoints cluster(Index3D& sindex, unsigned max_points, qfn)] *)
Definition cluster_index (fuel : nat) (sindex : Index3D)
  : ending ClusteredPoints :=
  match clusters_loop fuel sindex [] with
  | Returns clusters => Returns (map (fun cluster => map snd cluster) clusters)
  | Throws => Throws
  | Unfinished => Unfinished
  end.

End Engine.

Arguments group : simpl never.
Arguments clusters_loop : simpl never.

(** [cluster(indices, pointfn, dist, max_points)] *)
Definition cluster_dist (heap : N) (fuel : nat) (indices : list N)
           (pointfn : N -> Vec3d) (dist : float) (max_points : N)
  : ending ClusteredPoints :=
  cluster_index (fun s p => distance_queryfn heap s p dist max_points)
                max_points fuel (build_index indices pointfn).

(** [cluster(indices, pointfn, predicate, max_points)] *)
Definition cluster_pred (heap : N) (fuel : nat) (indices : list N)
           (pointfn : N -> Vec3d)
           (predicate : SpatElement -> SpatElement -> bool)
           (max_points : N) : ending ClusteredPoints :=
  cluster_index (predicate_queryfn heap max_points predicate) max_points
                fuel (build_index indices pointfn).

Definition cluster (heap : N) (fuel : nat) (indices : list N)
           (pointfn : N -> Vec3d) (q : Query) (max_points : N)
  : ending ClusteredPoints :=
  match q with
  | ByDistance dist => cluster_dist heap fuel indices pointfn dist max_points
  | ByPredicate predicate =>
      cluster_pred heap fuel indices pointfn predicate max_points
  end.

Definition query_fn (heap : N) (q : Query) (max_points : N)
  : Index3D -> SpatElement -> option Elems :=
  match q with
  | ByDistance dist => fun s p => distance_queryfn heap s p dist max_points
  | ByPredicate predicate => predicate_queryfn heap max_points predicate
  end.

End Alloc.

(** ** Normals on the mesh *)

(** A row of the face matrix: three vertex numbers ([int]s). *)
Record Vec3i : Type := mkVec3i { iX : Z; iY : Z; iZ : Z }.

(** The mesh: the vertex matrix [V], the face matrix [F], and the AABB tree
    of the igl library, taken as the closest-point query it answers: the
    number of the nearest face and the nearest point of the surface
    ([None]: no tree was built). *)
Record EigenMesh3D : Type := {
  V : list Vec3d;
  F : list Vec3i;
  m_aabb : option (Vec3d -> Z * Vec3d)
}.

(** [PointSet]: one row per query point; a row is [None] as long as nothing
    was written into it. *)
Definition PointSet : Type := list (option Vec3d).

(** A call either runs to its end or is abandoned when [thr] throws. *)
Inductive outcome (A : Type) : Type :=
| Done (a : A)
| Cancelled.
Arguments Done {A} a.
Arguments Cancelled {A}.

(** Rows are read unchecked; a row outside the matrix reads as zeros. *)
Definition rowV (mesh : EigenMesh3D) (i : Z) : Vec3d :=
  default Vec.Zero (V mesh !! Z.to_nat i).
Definition rowF (mesh : EigenMesh3D) (i : Z) : Vec3i :=
  default (mkVec3i 0 0 0) (F mesh !! Z.to_nat i).

(** [EigenMesh3D::squared_distance(p, i, c)]: the face [i] and the point
    [c]; [i = -1] without a tree. *)
Definition squared_distance (mesh : EigenMesh3D) (p : Vec3d) : Z * Vec3d :=
  match m_aabb mesh with
  | Some closest => closest p
  | None => (-1, Vec.Zero)
  end.

(** [Eigen::ParametrizedLine::Through(e1, e2).distance(p)] *)
Definition line_distance (e1 e2 p : Vec3d) : float :=
  let direction := Vec.normalized (Vec.sub e2 e1) in
  let diff := Vec.sub p e1 in
  sqrt (Vec.squaredNorm
          (Vec.sub diff (Vec.scale (Vec.dot direction diff) direction))).

(** [bool point_on_edge(p, e1, e2, eps)] *)
Definition point_on_edge (p e1 e2 : Vec3d) (eps : float) : bool :=
  (abs (line_distance e1 e2 p) <? eps)%float.

(** The marks [ia], [ib], [ic] that [proc] sets: [ic] for a vertex, [ia]
    and [ib] for an edge, [-1] when unset. *)
Record marks : Type := mkMarks { ia : Z; ib : Z; ic : Z }.

Definition mark (p p1 p2 p3 : Vec3d) (trindex : Vec3i) (eps : float) : marks :=
  if (abs (distance p p1) <? eps)%float then mkMarks (-1) (-1) (iX trindex)
  else if (abs (distance p p2) <? eps)%float then mkMarks (-1) (-1) (iY trindex)
  else if (abs (distance p p3) <? eps)%float then mkMarks (-1) (-1) (iZ trindex)
  else if point_on_edge p p1 p2 eps then mkMarks (iX trindex) (iY trindex) (-1)
  else if point_on_edge p p2 p3 eps then mkMarks (iY trindex) (iZ trindex) (-1)
  else if point_on_edge p p1 p3 eps then mkMarks (iX trindex) (iZ trindex) (-1)
  else mkMarks (-1) (-1) (-1).

Definition has_vertex (ni : Vec3i) (v : Z) : bool :=
  (iX ni =? v) || (iY ni =? v) || (iZ ni =? v).

(** [deq] and the predicate given to [std::unique]. *)
Definition deq (a b : float) : bool := (abs (a - b) <? 0.001)%float.

Definition same_normal (n1 n2 : Vec3d) : bool :=
  deq (Vec.x n1) (Vec.x n2) && deq (Vec.y n1) (Vec.y n2)
  && deq (Vec.z n1) (Vec.z n2).

(** [std::unique(first, last, pred)]: [result] is the last element kept,
    and an element is kept when [pred(result, element)] fails. *)
Fixpoint unique_from (result : Vec3d) (rest : list Vec3d) : list Vec3d :=
  match rest with
  | [] => []
  | v :: rest' =>
      if same_normal result v then unique_from result rest'
      else v :: unique_from v rest'
  end.

Definition unique (l : list Vec3d) : list Vec3d :=
  match l with
  | [] => []
  | v :: rest => v :: unique_from v rest
  end.

(** The order given to [std::sort]: [v1] before [v2] when
    [v1.sum() < v2.sum()]. *)
Definition sum_le : relation Vec3d :=
  fun v1 v2 => (Vec.sum v2 <? Vec.sum v1)%float = false.

#[global] Instance sum_le_dec v1 v2 : Decision (sum_le v1 v2).
Proof. unfold sum_le. apply _. Defined.

(** [std::sort] is the library's.  The standard leaves open the order of
    elements that the comparison does not tell apart; the library sorts a
    range of up to 16 elements, as the faces around a vertex or an edge
    make one, by insertion, which moves no element past another of equal
    sum.  That sort is the one given here.  (On a longer range the library
    may order equal sums in another way; what is proved of [normals] for
    ranges of every length holds for every arrangement by sum.)

    The inner loop: [val] goes down the sorted range from its end, past
    every element that it is less than.  [back] is the sorted range, last
    element first. *)
Fixpoint linear_insert (val : Vec3d) (back : list Vec3d) : list Vec3d :=
  match back with
  | [] => [val]
  | next :: back' =>
      if (Vec.sum val <? Vec.sum next)%float
      then next :: linear_insert val back'
      else val :: back
  end.

(** The outer loop, for the next element [val]: an element less than the
    first of the range goes to the front, any other is inserted from the
    end. *)
Definition insertion_step (back : list Vec3d) (val : Vec3d) : list Vec3d :=
  match last back with
  | Some first =>
      if (Vec.sum val <? Vec.sum first)%float then back ++ [val]
      else linear_insert val back
  | None => [val]
  end.

Definition sort_by_sum (l : list Vec3d) : list Vec3d :=
  reverse (foldl insertion_step [] l).

(** The unit normal of a face. *)
Definition face_normal (mesh : EigenMesh3D) (tri : Vec3i) : Vec3d :=
  let pt1 := rowV mesh (iX tri) in
  let pt2 := rowV mesh (iY tri) in
  let pt3 := rowV mesh (iZ tri) in
  Vec.normalized (Vec.cross (Vec.sub pt2 pt1) (Vec.sub pt3 pt1)).

(** [std::accumulate(first, lend, Vec3d::Zero()) / (lend - first)] *)
Definition accumulate (l : list Vec3d) : Vec3d := foldl Vec.add Vec.Zero l.

Definition of_count (n : nat) : float := of_uint63 (Uint63.of_Z (Z.of_nat n)).

Section Normals.

(** The point of a query index, and the cancellation check: [thr tt] is
    [true] when the check throws. *)
Variable pfn : N -> Vec3d.
Variable mesh : EigenMesh3D.
Variable eps : float.
Variable thr : unit -> bool.

(** The scan over all faces, with its check before every face. *)
Fixpoint scan (keep : Vec3i -> bool) (faces : list Vec3i)
  : outcome (list Vec3i) :=
  match faces with
  | [] => Done []
  | ni :: faces' =>
      if thr tt then Cancelled
      else match scan keep faces' with
           | Done neigh => Done (if keep ni then ni :: neigh else neigh)
           | Cancelled => Cancelled
           end
  end.

(** The faces around the marked vertex or edge. *)
Definition neighbours (m : marks) : outcome (list Vec3i) :=
  if 0 <=? ic m then scan (fun ni => has_vertex ni (ic m)) (F mesh)
  else if (0 <=? ia m) && (0 <=? ib m)
       then scan (fun ni => has_vertex ni (ia m) && has_vertex ni (ib m)) (F mesh)
       else Done [].

(** [proc(ridx)] for the query index [eidx = range[ridx]]: the row it
    writes, if it writes one. *)
Definition proc (eidx : N) : outcome (option Vec3d) :=
  if thr tt then Cancelled
  else
    let '(faceid, p) := squared_distance mesh (pfn eidx) in
    if faceid <? 0 then Done None
    else
      let trindex := rowF mesh faceid in
      let p1 := rowV mesh (iX trindex) in
      let p2 := rowV mesh (iY trindex) in
      let p3 := rowV mesh (iZ trindex) in
      match neighbours (mark p p1 p2 p3 trindex eps) with
      | Cancelled => Cancelled
      | Done [] => Done (Some (Vec.cross (Vec.sub p2 p1) (Vec.sub p3 p1)))
      | Done neigh =>
          let neighnorms := sort_by_sum (face_normal mesh <$> neigh) in
          let kept := unique neighnorms in
          Done (Some (Vec.divs (accumulate kept) (of_count (length kept))))
      end.

(** The rows of all query indices; one cancelled row cancels the call. *)
Fixpoint rows (range : list N) : outcome PointSet :=
  match range with
  | [] => Done []
  | eidx :: range' =>
      match proc eidx, rows range' with
      | Done r, Done ret => Done (r :: ret)
      | _, _ => Cancelled
      end
  end.

(** [PointSet normals(pfn, mesh, eps, pt_indices, thr)] *)
Definition normals (pt_indices : list N) : outcome PointSet :=
  if bool_decide (length pt_indices = 0%nat)
     || bool_decide (length (V mesh) = 0%nat)
     || bool_decide (length (F mesh) = 0%nat)
  then Done []
  else rows pt_indices.

End Normals.

(** ** What the results are measured against *)

Abbreviation payloads := (fmap (M:=list) (snd : SpatElement -> N)).

(** A query function answers from the index: what it returns is stored,
    each stored value at most as often as it is stored. *)
Definition index_query (qfn : Index3D -> SpatElement -> Elems) : Prop :=
  forall s p, qfn s p ⊆+ s.

(** A cluster under construction over the index [s]: sorted by payload,
    no payload twice, all members stored. *)
Definition well_kept (s : Index3D) (cl : Elems) : Prop :=
  StronglySorted payload_le cl /\ NoDup (payloads cl) /\ cl ⊆ s.

(** An element that the index can find again: it is equal to itself, that
    is, none of its coordinates is a NaN. *)
Definition storable (e : SpatElement) : Prop := Index.equal_to e e = true.

#[global] Instance storable_dec e : Decision (storable e).
Proof. unfold storable. apply _. Defined.

Definition remove_all (cluster : Elems) (s : Index3D) : Index3D :=
  foldl (fun s c => Index.remove c s) s cluster.

(** The query function finds something for every seed that the loop can
    meet: the first element of what is left of the index. *)
Definition answers_seed (qfn : Index3D -> SpatElement -> Elems)
           (s : Index3D) : Prop :=
  forall it rest, it :: rest `sublist_of` s -> qfn (it :: rest) it ≠ [].

(** What makes a query strategy answer every seed: a predicate that holds
    of every stored element with itself; a distance query that asks for at
    least one neighbour, within a threshold that is not negative. *)
Definition seed_answered (q : Query) (max_points : N) (s : Index3D) : Prop :=
  match q with
  | ByPredicate predicate => forall e, e ∈ s -> predicate e e = true
  | ByDistance dist => max_points ≠ 0%N /\ (dist <? 0)%float = false
  end.

(** [res] splits [indices]: every index lies in exactly one cluster, and a
    cluster holds indices of the input only, none twice. *)
Definition partition_of (res : ClusteredPoints) (indices : list N) : Prop :=
  (forall i, i ∈ indices ->
     exists k c, res !! k = Some c /\ i ∈ c
       /\ forall k' c', res !! k' = Some c' -> i ∈ c' -> k' = k)
  /\ (forall c, c ∈ res -> NoDup c /\ c ⊆ indices).

(** Where the closest point lies on its triangle. *)
Inductive DegeneracyClass : Type :=
| FaceInterior
| OnVertex (v : Z)
| OnEdge (a b : Z).

(** The branch of [proc] that the marks select. *)
Definition degeneracy (m : marks) : DegeneracyClass :=
  if 0 <=? ic m then OnVertex (ic m)
  else if (0 <=? ia m) && (0 <=? ib m) then OnEdge (ia m) (ib m)
  else FaceInterior.

(** The marks that stand for a class. *)
Definition marks_of (cls : DegeneracyClass) : marks :=
  match cls with
  | FaceInterior => mkMarks (-1) (-1) (-1)
  | OnVertex v => mkMarks (-1) (-1) v
  | OnEdge a b => mkMarks a b (-1)
  end.

(** The two measures of the description.  The Euclidean distance of two
    points: the square root of the sum of the squared coordinate
    differences. *)
Definition euclidean_distance (a b : Vec3d) : float :=
  let dx := (Vec.x b - Vec.x a)%float in
  let dy := (Vec.y b - Vec.y a)%float in
  let dz := (Vec.z b - Vec.z a)%float in
  sqrt (dx * dx + (dy * dy + dz * dz))%float.

(** The perpendicular distance of [c] to the line through [e1] and [e2],
    however far along the line: the length of what is left of [c - e1]
    when its part along the unit direction of the line is taken off. *)
Definition perpendicular_distance (e1 e2 c : Vec3d) : float :=
  let u := Vec.normalized (Vec.sub e2 e1) in
  let w := Vec.sub c e1 in
  let along := Vec.scale (Vec.dot u w) u in
  let across := Vec.sub w along in
  sqrt (Vec.dot across across).

(** The classification in the order of the description: the first of the
    vertices [v0], [v1], [v2] that is nearer to [c] than [eps]; failing
    that, the first of the edges [(v0,v1)], [(v1,v2)], [(v0,v2)] whose line
    is nearer to [c] than [eps]; failing that, the interior of the face. *)
Definition classify (c v0 v1 v2 : Vec3d) (tri : Vec3i) (eps : float)
  : DegeneracyClass :=
  match list_find (fun vi => Is_true (euclidean_distance c vi.1 <? eps)%float)
                  [(v0, iX tri); (v1, iY tri); (v2, iZ tri)] with
  | Some (_, (_, id)) => OnVertex id
  | None =>
      match list_find
              (fun ei => Is_true (perpendicular_distance ei.1.1 ei.1.2 c <? eps)%float)
              [((v0, v1), (iX tri, iY tri)); ((v1, v2), (iY tri, iZ tri));
               ((v0, v2), (iX tri, iZ tri))] with
      | Some (_, (_, (ida, idb))) => OnEdge ida idb
      | None => FaceInterior
      end
  end.

(** Collapsing, from the left, every adjacent pair of normals that
    [same_normal] takes for one: the second of the pair goes. *)
Equations collapse_adjacent (l : list Vec3d) : list Vec3d by wf (length l) lt :=
  collapse_adjacent [] := [];
  collapse_adjacent [a] := [a];
  collapse_adjacent (a :: b :: l) :=
    if same_normal a b then collapse_adjacent (a :: l)
    else a :: collapse_adjacent (b :: l).

(** The faces around a vertex or an edge, by their vertex triples. *)
Definition vertices (f : Vec3i) : list Z := [iX f; iY f; iZ f].

Definition faces_around (mesh : EigenMesh3D) (cls : DegeneracyClass)
  : list Vec3i :=
  match cls with
  | OnVertex v => filter (fun f => v ∈ vertices f) (F mesh)
  | OnEdge a b => filter (fun f => a ∈ vertices f /\ b ∈ vertices f) (F mesh)
  | FaceInterior => []
  end.

(** The unit normal of a face: the cross product of its two edges at the
    first vertex, over its length. *)
Definition unit_normal (mesh : EigenMesh3D) (f : Vec3i) : Vec3d :=
  let v0 := rowV mesh (iX f) in
  let v1 := rowV mesh (iY f) in
  let v2 := rowV mesh (iZ f) in
  Vec.normalized (Vec.cross (Vec.sub v1 v0) (Vec.sub v2 v0)).

(** The arithmetic mean: the sum over the count, not normalized again. *)
Definition mean (l : list Vec3d) : Vec3d :=
  Vec.divs (foldl Vec.add Vec.Zero l) (of_count (length l)).

(** The normal at a vertex or an edge: the mean of the unit normals of the
    faces around it that survive the sorting by coordinate sum and the
    collapsing. *)
Definition resolved_normal (mesh : EigenMesh3D) (cls : DegeneracyClass)
  : Vec3d :=
  mean (collapse_adjacent
          (sort_by_sum (face_normal mesh <$> faces_around mesh cls))).

(** ** Runs and chains, for the further results *)

(** The rounds of the loop over the index, from the index they start on to
    the clusters they give: each round grows a cluster from the first
    stored element and removes its members. *)
Inductive rounds (qfn : Index3D -> SpatElement -> Elems) (max_points : N)
  : Index3D -> list Elems -> Prop :=
| rounds_done : rounds qfn max_points [] []
| rounds_round fuel it s cl R :
    group qfn max_points fuel (it :: s) [it] [] = Some cl ->
    rounds qfn max_points (remove_all cl (it :: s)) R ->
    rounds qfn max_points (it :: s) (cl :: R).

(** [e] is reached from [p] over the index [s]: through answers of the
    query, each of them a member of [cl]. *)
Inductive reached (qfn : Index3D -> SpatElement -> Elems) (s : Index3D)
          (cl : Elems) (p : SpatElement) : SpatElement -> Prop :=
| reached_answer e : e ∈ qfn s p -> e ∈ cl -> reached qfn s cl p e
| reached_step e e' :
    reached qfn s cl p e -> e' ∈ qfn s e -> e' ∈ cl -> reached qfn s cl p e'.

(** The same in the caller's terms, for a predicate: a chain of indices
    from [i], each in [c], each holding the predicate with the one
    before. *)
Inductive linked (predicate : SpatElement -> SpatElement -> bool)
          (pointfn : N -> Vec3d) (c : list N) (i : N) : N -> Prop :=
| linked_first j :
    j ∈ c -> predicate (pointfn i, i) (pointfn j, j) = true ->
    linked predicate pointfn c i j
| linked_next j k :
    linked predicate pointfn c i j -> k ∈ c ->
    predicate (pointfn j, j) (pointfn k, k) = true ->
    linked predicate pointfn c i k.

(** ** The entry point over a point set *)

(** [unsigned(i)] for a row number [i]: its low 32 bits. *)
Definition to_unsigned (i : Z) : N := Z.to_N (i mod 2 ^ 32).

(** [for(Eigen::Index i = 0; i < pts.rows(); i++)
       sindex.insert(std::make_pair(Vec3d(pts.row(i)), unsigned(i)));]
    from the row number [i] on. *)
Fixpoint insert_rows (rows : list Vec3d) (i : Z) (sindex : Index3D) : Index3D :=
  match rows with
  | [] => sindex
  | row :: rows' =>
      insert_rows rows' (i + 1) (Index.insert (row, to_unsigned i) sindex)
  end.

(** [cluster(const PointSet& pts, double dist, unsigned max_points)], on a
    point set whose rows are all written. *)
Definition cluster_pts (fuel : nat) (pts : list Vec3d)
           (dist : float) (max_points : N) : option ClusteredPoints :=
  cluster_index (fun s p => distance_queryfn s p dist max_points) max_points
                fuel (insert_rows pts 0 []).

(** The row numbers of a point set, and the row of a number. *)
Definition row_numbers (pts : list Vec3d) : list N :=
  N.of_nat <$> seq 0 (length pts).

Definition row_of (pts : list Vec3d) (i : N) : Vec3d :=
  default Vec.Zero (pts !! N.to_nat i).

(** ** Inputs of the examples *)

Definition three_points (i : N) : Vec3d :=
  match i with
  | 0%N => Vec.mk 0 0 0
  | 1%N => Vec.mk 0.5 0 0
  | _ => Vec.mk 10 0 0
  end.

(** The scenario of two tight pairs, [0.01] apart inside a pair and [10]
    apart from each other, and a far point. *)
Definition pairs_and_far (i : N) : Vec3d :=
  match i with
  | 0%N => Vec.mk 0 0 0
  | 1%N => Vec.mk 0.01 0 0
  | 2%N => Vec.mk 10 0 0
  | 3%N => Vec.mk 10.01 0 0
  | _ => Vec.mk 100 100 100
  end.

(** The predicate that the distance query is meant to decide: [e] is no
    farther than [1] from [p]. *)
Definition within_one (p e : SpatElement) : bool :=
  negb (1 <? distance p.1 e.1)%float.

(** Four points on a line, at [0], [10], [25] and [45]. *)
Definition line_points (i : N) : Vec3d :=
  match i with
  | 0%N => Vec.mk 0 0 0
  | 1%N => Vec.mk 10 0 0
  | 2%N => Vec.mk 25 0 0
  | _ => Vec.mk 45 0 0
  end.

(** Three faces standing on each other at the corner [(0,0,0)], with edges
    of length [2] along the axes; the closest-point query is asked for
    points of the surface only, and names the first face. *)
Definition corner_mesh : EigenMesh3D :=
  {| V := [Vec.mk 0 0 0; Vec.mk 2 0 0; Vec.mk 0 2 0; Vec.mk 0 0 2];
     F := [mkVec3i 0 1 2; mkVec3i 0 2 3; mkVec3i 0 3 1];
     m_aabb := Some (fun p => (0, p)) |}.

(** A floor of two faces in the plane [z = 0] and a wall on the line
    between them, listed between them; the wall looks along [x]. *)
Definition ridge_mesh : EigenMesh3D :=
  {| V := [Vec.mk 0 0 0; Vec.mk 1 0 0; Vec.mk 0 1 0; Vec.mk 0 0 1;
           Vec.mk (-1) 0 0];
     F := [mkVec3i 0 1 2; mkVec3i 0 2 3; mkVec3i 0 2 4];
     m_aabb := Some (fun p => (0, p)) |}.

(** The same with the wall turned round: it looks against [x]. *)
Definition step_mesh : EigenMesh3D :=
  {| V := [Vec.mk 0 0 0; Vec.mk 1 0 0; Vec.mk 0 1 0; Vec.mk 0 0 1;
           Vec.mk (-1) 0 0];
     F := [mkVec3i 0 1 2; mkVec3i 0 3 2; mkVec3i 0 2 4];
     m_aabb := Some (fun p => (0, p)) |}.

(** The unit square in the plane [z = 0], cut into two triangles along the
    diagonal from vertex 1 to vertex 2; its closest-point query drops the
    height of the point and names the first face. *)
Definition square_mesh : EigenMesh3D :=
  {| V := [Vec.mk 0 0 0; Vec.mk 1 0 0; Vec.mk 0 1 0; Vec.mk 1 1 0];
     F := [mkVec3i 0 1 2; mkVec3i 1 3 2];
     m_aabb := Some (fun p => (0, Vec.mk (Vec.x p) (Vec.y p) 0)) |}.


(** * Proofs *)

(** ** Sorting by payload and the set difference *)

#[global] Instance payload_le_trans : Transitive payload_le.
Proof. intros a b c; unfold payload_le; lia. Qed.

#[global] Instance payload_le_total : Total payload_le.
Proof. intros a b; unfold payload_le; lia. Qed.

Lemma sort_cmp_perm l : sort_cmp l ≡ₚ l.
Proof. apply merge_sort_Permutation. Qed.

Lemma sort_cmp_sorted l : StronglySorted payload_le (sort_cmp l).
Proof. apply StronglySorted_merge_sort; apply _. Qed.

Lemma sort_cmp_length l : length (sort_cmp l) = length l.
Proof. apply Permutation_length, sort_cmp_perm. Qed.

Lemma sort_cmp_elem e l : e ∈ sort_cmp l ↔ e ∈ l.
Proof. by rewrite sort_cmp_perm. Qed.

Lemma sort_cmp_payloads l : payloads (sort_cmp l) ≡ₚ payloads l.
Proof. apply fmap_Permutation, sort_cmp_perm. Qed.

Lemma set_difference_nil_r l1 : set_difference l1 [] = l1.
Proof. by destruct l1. Qed.

Lemma set_difference_cons e1 l1 e2 l2 :
  set_difference (e1 :: l1) (e2 :: l2) =
    if cmp e1 e2 then e1 :: set_difference l1 (e2 :: l2)
    else if cmp e2 e1 then set_difference (e1 :: l1) l2
    else set_difference l1 l2.
Proof. reflexivity. Qed.

Lemma set_difference_sublist l1 l2 : set_difference l1 l2 `sublist_of` l1.
Proof.
  revert l2. induction l1 as [|e1 l1 IH]; intros l2; [by destruct l2|].
  induction l2 as [|e2 l2 IH2]; [done|].
  rewrite set_difference_cons.
  destruct (cmp e1 e2); [by apply sublist_skip|].
  destruct (cmp e2 e1); [done|]. by apply sublist_cons.
Qed.

Lemma set_difference_elem l1 l2 e : e ∈ set_difference l1 l2 -> e ∈ l1.
Proof. apply sublist_subseteq, set_difference_sublist. Qed.

(** On sorted ranges, what [set_difference] keeps has a payload that the
    second range does not hold. *)
Lemma set_difference_fresh l1 l2 e :
  StronglySorted payload_le l1 -> NoDup (payloads l1) ->
  StronglySorted payload_le l2 ->
  e ∈ set_difference l1 l2 -> e.2 ∉ payloads l2.
Proof.
  revert l2. induction l1 as [|e1 l1 IH]; intros l2 S1 N1 S2.
  { destruct l2; by intros ?%elem_of_nil. }
  apply StronglySorted_inv in S1 as [S1 H1]. apply NoDup_cons in N1 as [F1 N1].
  induction l2 as [|e2 l2 IH2]; [intros _; by intros ?%elem_of_nil|].
  pose proof S2 as S2'. apply StronglySorted_inv in S2' as [S2' H2].
  rewrite set_difference_cons. unfold cmp.
  destruct (N.ltb_spec e1.2 e2.2) as [Hlt|Hge].
  - intros [->|Hin]%elem_of_cons.
    + rewrite fmap_cons. intros [Heq|Hin]%elem_of_cons; [lia|].
      apply list_elem_of_fmap in Hin as (e' & Heq & Hin).
      rewrite Forall_forall in H2. specialize (H2 _ Hin). unfold payload_le in H2. lia.
    + by apply IH.
  - destruct (N.ltb_spec e2.2 e1.2) as [Hlt|Hge'].
    + intros Hin. rewrite fmap_cons. intros [Heq|Hin']%elem_of_cons.
      * apply set_difference_elem in Hin.
        apply elem_of_cons in Hin as [->|Hin]; [lia|].
        rewrite Forall_forall in H1. specialize (H1 _ Hin). unfold payload_le in H1. lia.
      * by apply IH2.
    + intros Hin. rewrite fmap_cons. intros [Heq|Hin']%elem_of_cons.
      * apply set_difference_elem in Hin.
        apply F1. apply list_elem_of_fmap. exists e. split; [lia|done].
      * by eapply IH.
Qed.

Lemma to_int_le v : 0 <= v -> to_int v <= v.
Proof.
  intros Hv. unfold to_int.
  pose proof (Z.mod_le (v + 2 ^ 31) (2 ^ 32)). lia.
Qed.

Lemma to_int_small v : 0 <= v < 2 ^ 31 -> to_int v = v.
Proof. intros Hv. unfold to_int. rewrite Z.mod_small; lia. Qed.

Lemma size_t_small v : 0 <= v < 2 ^ 64 -> size_t v = v.
Proof. intros Hv. unfold size_t. by rewrite Z.mod_small. Qed.

(** Taking points into a cluster within the cap keeps it within the
    cap. *)
Lemma fill_count_cap mp newpts cluster :
  mp ≠ 0%N -> vec_size cluster <= Z.of_N mp ->
  vec_size cluster + Z.of_nat (length (take (Z.to_nat (fill_count mp newpts cluster)) newpts))
    <= Z.of_N mp.
Proof.
  intros Hmp Hcl. rewrite length_take. unfold fill_count, vec_size in *.
  destruct (negb (mp =? 0)%N && _) eqn:Hc.
  - pose proof (Z.mod_le (Z.of_N mp - Z.of_nat (length cluster)) (2 ^ 64)).
    pose proof (Z.mod_pos_bound (Z.of_N mp - Z.of_nat (length cluster)) (2 ^ 64)).
    pose proof (to_int_le (size_t (Z.of_N mp - Z.of_nat (length cluster)))).
    unfold size_t in *. lia.
  - apply andb_false_iff in Hc as [Hc|Hc].
    + apply negb_false_iff, N.eqb_eq in Hc. done.
    + apply Z.ltb_ge in Hc. lia.
Qed.

(** Below [2^31] new points the narrowing to [int] loses nothing: the
    count is the number of new points, or what is left up to the cap. *)
Lemma fill_count_exact mp newpts cluster :
  vec_size newpts < 2 ^ 31 -> (mp = 0%N \/ vec_size cluster <= Z.of_N mp) ->
  fill_count mp newpts cluster =
    if negb (mp =? 0)%N && (Z.of_N mp <? vec_size newpts + vec_size cluster)
    then Z.of_N mp - vec_size cluster else vec_size newpts.
Proof.
  intros Hn Hcl. unfold fill_count, vec_size in *.
  destruct (negb (mp =? 0)%N && _) eqn:Hc.
  - apply andb_true_iff in Hc as [Hc1 Hc2].
    apply negb_true_iff, N.eqb_neq in Hc1. apply Z.ltb_lt in Hc2.
    destruct Hcl as [?|Hcl]; [done|].
    rewrite size_t_small by lia. apply to_int_small. lia.
  - apply to_int_small. lia.
Qed.

Lemma submseteq_NoDup {A} (l k : list A) : l ⊆+ k -> NoDup k -> NoDup l.
Proof.
  intros (l' & Hsub & Hp)%submseteq_sublist_l Hk.
  apply (sublist_NoDup l l'); [by rewrite Hp|exact Hsub].
Qed.

(** ** Invariants of [group] *)

Section EngineFacts.

Variable qfn : Index3D -> SpatElement -> Elems.
Variable max_points : N.

Lemma group_nil fuel s cl : group qfn max_points (S fuel) s [] cl = Some cl.
Proof. reflexivity. Qed.

Lemma group_cons fuel s p pts cl :
  group qfn max_points (S fuel) s (p :: pts) cl =
    let '(cl', newpts, again) := group_step qfn max_points s p cl in
    if again
    then match group qfn max_points fuel s newpts cl' with
         | Some cl'' => group qfn max_points (S fuel) s pts cl''
         | None => None
         end
    else group qfn max_points (S fuel) s pts cl'.
Proof. reflexivity. Qed.

(** What every round of [group_step] keeps, [group] keeps. *)
Lemma group_inv (P : Elems -> Prop) s :
  (forall p cl, P cl -> P (group_step qfn max_points s p cl).1.1) ->
  forall fuel pts cl cl',
    group qfn max_points fuel s pts cl = Some cl' -> P cl -> P cl'.
Proof.
  intros Hstep. induction fuel as [|fuel IH]; [done|].
  induction pts as [|p pts IHp]; intros cl cl'.
  - rewrite group_nil. by intros [= <-].
  - rewrite group_cons. specialize (Hstep p cl).
    destruct (group_step qfn max_points s p cl) as [[cl1 newpts] again]; simpl in *.
    destruct again.
    + destruct (group qfn max_points fuel s newpts cl1) as [cl2|] eqn:Hg; [|done].
      intros Hr Hcl. eapply IHp; [done|]. eapply IH; eauto.
    + intros Hr Hcl. eapply IHp; eauto.
Qed.

Lemma group_step_sorted s p cl :
  StronglySorted payload_le (group_step qfn max_points s p cl).1.1.
Proof. apply sort_cmp_sorted. Qed.

Lemma group_step_cap s p cl :
  max_points ≠ 0%N -> vec_size cl <= Z.of_N max_points ->
  vec_size (group_step qfn max_points s p cl).1.1 <= Z.of_N max_points.
Proof.
  intros Hmp Hcl. unfold group_step; simpl. unfold vec_size at 1.
  rewrite sort_cmp_length, length_app, Nat2Z.inj_add.
  by apply fill_count_cap.
Qed.

Lemma group_step_grows s p cl : cl ⊆ (group_step qfn max_points s p cl).1.1.
Proof.
  unfold group_step; simpl. intros e He. apply sort_cmp_elem, elem_of_app. by left.
Qed.

Lemma group_step_well_kept s p cl :
  index_query qfn -> NoDup (payloads s) ->
  well_kept s cl -> well_kept s (group_step qfn max_points s p cl).1.1.
Proof.
  intros Hq Hs (Hsort & Hnd & Hsub). unfold group_step; simpl.
  set (tmp := sort_cmp (qfn s p)).
  set (newpts := set_difference tmp cl).
  set (c := Z.to_nat (fill_count max_points newpts cl)).
  assert (Htmp : NoDup (payloads tmp)).
  { unfold tmp. rewrite sort_cmp_payloads.
    eapply submseteq_NoDup; [|exact Hs]. by apply fmap_submseteq. }
  assert (Hsubn : take c newpts `sublist_of` tmp).
  { etrans; [apply sublist_take|apply set_difference_sublist]. }
  split; [apply sort_cmp_sorted|]. split.
  - rewrite sort_cmp_payloads, fmap_app. apply NoDup_app. split; [done|]. split.
    + intros i Hi Hi'. apply list_elem_of_fmap in Hi' as (e & -> & He).
      assert (He' : e ∈ newpts) by (eapply sublist_subseteq; [apply sublist_take|done]).
      eapply set_difference_fresh in He'; [done|apply sort_cmp_sorted|done|done].
    + eapply sublist_NoDup; [exact Htmp|]. by apply fmap_sublist.
  - intros e [He|He]%sort_cmp_elem%elem_of_app; [by apply Hsub|].
    eapply elem_of_submseteq; [|apply Hq].
    apply sort_cmp_elem. eapply sublist_subseteq; [exact Hsubn|done].
Qed.

Lemma well_kept_nil s : well_kept s [].
Proof. split; [constructor|]. split; [constructor|]. apply list_subseteq_nil. Qed.

Lemma group_sorted fuel s pts cl cl' :
  group qfn max_points fuel s pts cl = Some cl' ->
  StronglySorted payload_le cl -> StronglySorted payload_le cl'.
Proof.
  apply (group_inv (StronglySorted payload_le)). intros; apply group_step_sorted.
Qed.

Lemma group_cap fuel s pts cl cl' :
  max_points ≠ 0%N ->
  group qfn max_points fuel s pts cl = Some cl' ->
  vec_size cl <= Z.of_N max_points -> vec_size cl' <= Z.of_N max_points.
Proof.
  intros Hmp. apply (group_inv (fun cl => vec_size cl <= Z.of_N max_points)).
  intros; by apply group_step_cap.
Qed.

Lemma group_well_kept fuel s pts cl cl' :
  index_query qfn -> NoDup (payloads s) ->
  group qfn max_points fuel s pts cl = Some cl' ->
  well_kept s cl -> well_kept s cl'.
Proof.
  intros Hq Hs. apply (group_inv (well_kept s)). intros; by apply group_step_well_kept.
Qed.

Lemma group_grows fuel s pts cl cl' e :
  group qfn max_points fuel s pts cl = Some cl' -> e ∈ cl -> e ∈ cl'.
Proof.
  apply (group_inv (fun cl => e ∈ cl)). intros p cl0 He. by apply group_step_grows.
Qed.

End EngineFacts.

(** ** Facts on binary64 floats *)

Ltac sf_step :=
  match goal with
  | b : bool |- _ => destruct b
  | |- context [Pos.compare_cont Eq ?a ?b] =>
      change (Pos.compare_cont Eq a b) with (Pos.compare a b)
  | |- context [Z.compare ?a ?b] => destruct (Z.compare_spec a b); try subst a
  | |- context [Pos.compare ?a ?b] => destruct (Pos.compare_spec a b); try subst a
  end.

Ltac sf_cases := repeat (simpl; try done; try lia; sf_step).

Lemma SFltb_nan_r d : SFltb d S754_nan = false.
Proof. by destruct d. Qed.

Lemma SFltb_zero_sign d s : SFltb d (S754_zero s) = SFltb d (S754_zero false).
Proof. by destruct d. Qed.

Lemma SFsub_self x :
  SFsub prec emax x x = S754_zero false \/ SFsub prec emax x x = S754_nan.
Proof.
  destruct x as [s|s| |s m e]; simpl.
  - left. by destruct s.
  - right. by destruct s.
  - by right.
  - left. rewrite Z.min_id. unfold shl_align. rewrite Z.sub_diag. simpl.
    done.
Qed.

Lemma SFsqrt_nonpos d y :
  SFleb y (S754_zero false) = true ->
  SFltb d (S754_zero false) = false ->
  SFltb d (SFsqrt prec emax y) = false.
Proof.
  intros Hy Hd. destruct y as [s|s| |s m e]; cbn [SFsqrt].
  - by rewrite SFltb_zero_sign.
  - destruct s; [apply SFltb_nan_r|done].
  - apply SFltb_nan_r.
  - destruct s; [apply SFltb_nan_r|done].
Qed.


Lemma SFsqrt_sign x :
  match SFsqrt prec emax x with
  | S754_infinity s | S754_finite s _ _ => s = false
  | _ => True
  end.
Proof.
  destruct x as [s|s| |s m e]; simpl; try done.
  - by destruct s.
  - destruct s; [done|].
    destruct (SFsqrt_core_binary prec emax (Z.pos m) e) as [[mz ez] lz].
    unfold binary_round_aux.
    destruct (shr_fexp prec emax mz ez lz) as [mrs' e'].
    destruct (shr_fexp prec emax _ e' loc_Exact) as [mrs'' e''].
    destruct (shr_m mrs''); [done| |done].
    by destruct (e'' <=? emax - prec).
Qed.

Lemma SFabs_sqrt_ltb x e :
  SFltb (SFabs (SFsqrt prec emax x)) e = SFltb (SFsqrt prec emax x) e.
Proof.
  pose proof (SFsqrt_sign x) as H.
  destruct (SFsqrt prec emax x) as [s|s| |s m ex]; simpl in *; subst; try done.
Qed.

(** On the primitive floats *)

Lemma float_sub_self (a : float) : (a - a)%float = 0%float \/ (a - a)%float = nan.
Proof.
  destruct (SFsub_self (Prim2SF a)) as [H|H]; [left|right];
    apply Prim2SF_inj; by rewrite FloatAxioms.sub_spec.
Qed.

Lemma float_sqrt_nonpos (d y : float) :
  (y <=? 0)%float = true -> (d <? 0)%float = false -> (d <? sqrt y)%float = false.
Proof. rewrite !FloatAxioms.leb_spec, !FloatAxioms.ltb_spec, FloatAxioms.sqrt_spec. apply SFsqrt_nonpos. Qed.


Lemma float_abs_sqrt_ltb (x e : float) :
  (abs (sqrt x) <? e)%float = (sqrt x <? e)%float.
Proof. rewrite !FloatAxioms.ltb_spec, FloatAxioms.abs_spec, FloatAxioms.sqrt_spec. apply SFabs_sqrt_ltb. Qed.

(** ** Removing the members of a cluster from the index *)

Lemma float_eqb_refl_r (a b : float) :
  (a =? b)%float = true -> (b =? b)%float = true.
Proof.
  rewrite !FloatAxioms.eqb_spec. unfold SFeqb.
  destruct (Prim2SF a) as [sa|sa| |sa ma ea], (Prim2SF b) as [sb|sb| |sb mb eb];
    simpl; try done; intros _;
    try destruct sb; rewrite ?Z.compare_refl, ?Pos.compare_cont_refl; done.
Qed.

Lemma equal_to_payload a b : Index.equal_to a b = true -> a.2 = b.2.
Proof. unfold Index.equal_to. intros [_ H]%andb_true_iff. by apply N.eqb_eq. Qed.

Lemma equal_to_storable a b : Index.equal_to a b = true -> storable b.
Proof.
  unfold storable, Index.equal_to, Vec.eqb.
  intros [[[Hx Hy]%andb_true_iff Hz]%andb_true_iff _]%andb_true_iff.
  rewrite (float_eqb_refl_r _ _ Hx), (float_eqb_refl_r _ _ Hy),
    (float_eqb_refl_r _ _ Hz), N.eqb_refl. done.
Qed.

Lemma remove_sublist c s : Index.remove c s `sublist_of` s.
Proof.
  induction s as [|e s IH]; simpl; [done|].
  destruct (Index.equal_to c e); [by apply sublist_cons|by apply sublist_skip].
Qed.

Lemma remove_all_sublist cl s : remove_all cl s `sublist_of` s.
Proof.
  revert s. induction cl as [|c cl IH]; intros s; simpl; [done|].
  etrans; [apply IH|apply remove_sublist].
Qed.

Lemma remove_keeps_unstorable c e s :
  ¬ storable e -> e ∈ s -> e ∈ Index.remove c s.
Proof.
  intros He. induction s as [|e' s IH]; simpl; [done|].
  intros [->|Hin]%elem_of_cons.
  - destruct (Index.equal_to c e') eqn:Heq.
    + by apply equal_to_storable in Heq.
    + by left.
  - destruct (Index.equal_to c e'); [done|]. right. by apply IH.
Qed.

Lemma remove_all_keeps_unstorable cl e s :
  ¬ storable e -> e ∈ s -> e ∈ remove_all cl s.
Proof.
  intros He. revert s. induction cl as [|c cl IH]; intros s Hin; simpl; [done|].
  apply IH. by apply remove_keeps_unstorable.
Qed.

Lemma remove_found c s :
  NoDup (payloads s) -> c ∈ s -> storable c -> s ≡ₚ c :: Index.remove c s.
Proof.
  intros Hnd Hin Hc. induction s as [|e s IH]; simpl; [by apply elem_of_nil in Hin|].
  rewrite fmap_cons in Hnd. apply NoDup_cons in Hnd as [Hne Hnd].
  destruct (Index.equal_to c e) eqn:Heq.
  - apply equal_to_payload in Heq. apply elem_of_cons in Hin as [->|Hin]; [done|].
    exfalso. apply Hne. rewrite <- Heq. by apply list_elem_of_fmap_2.
  - apply elem_of_cons in Hin as [->|Hin]; [by rewrite Hc in Heq|].
    rewrite (IH Hnd Hin) at 1. apply Permutation_swap.
Qed.

Lemma remove_all_found cl s :
  NoDup (payloads s) -> NoDup (payloads cl) -> cl ⊆ s -> Forall storable s ->
  s ≡ₚ cl ++ remove_all cl s.
Proof.
  revert s. induction cl as [|c cl IH]; intros s Hs Hcl Hsub Hst; simpl; [done|].
  rewrite fmap_cons in Hcl. apply NoDup_cons in Hcl as [Hc Hcl].
  assert (Hin : c ∈ s) by (apply Hsub; by left).
  assert (Hp : s ≡ₚ c :: Index.remove c s).
  { apply remove_found; [done|done|]. by eapply Forall_forall in Hst. }
  rewrite Hp at 1. f_equiv. apply IH.
  - eapply sublist_NoDup; [exact Hs|]. apply fmap_sublist, remove_sublist.
  - done.
  - intros e He. assert (He' : e ∈ c :: Index.remove c s).
    { rewrite <- Hp. apply Hsub. by right. }
    apply elem_of_cons in He' as [->|He']; [|done].
    exfalso. apply Hc. by apply list_elem_of_fmap_2.
  - apply Forall_forall. intros e He. eapply Forall_forall in Hst; [exact Hst|].
    eapply sublist_subseteq; [apply remove_sublist|done].
Qed.

(** ** The loop over the index *)

Section LoopFacts.

Variable qfn : Index3D -> SpatElement -> Elems.
Variable max_points : N.

Lemma clusters_loop_unfold fuel s acc :
  clusters_loop qfn max_points (S fuel) s acc =
    match s with
    | [] => Some acc
    | it :: _ =>
        match group qfn max_points (S fuel) s [it] [] with
        | Some cl =>
            clusters_loop qfn max_points fuel (remove_all cl s) (acc ++ [cl])
        | None => None
        end
    end.
Proof. reflexivity. Qed.

(** An element that cannot be found again is never removed, and the loop
    never sees the index empty. *)
Lemma clusters_loop_stuck e fuel : forall s acc,
  e ∈ s -> ¬ storable e -> clusters_loop qfn max_points fuel s acc = None.
Proof.
  induction fuel as [|fuel IH]; intros s acc Hin He; [done|].
  rewrite clusters_loop_unfold. destruct s as [|it s]; [by apply elem_of_nil in Hin|].
  destruct (group _ _ _ _ _ _) as [cl|]; [|done].
  apply IH; [|done]. by apply remove_all_keeps_unstorable.
Qed.

Lemma clusters_loop_storable fuel s acc R :
  clusters_loop qfn max_points fuel s acc = Some R -> Forall storable s.
Proof.
  intros HR. destruct (decide (Forall storable s)) as [|Hn]; [done|].
  apply not_Forall_Exists in Hn; [|apply _].
  apply Exists_exists in Hn as (e & Hin & He).
  by rewrite (clusters_loop_stuck e fuel s acc Hin He) in HR.
Qed.

(** What holds of every cluster that [group] grows from a seed holds of
    every cluster of the result. *)
Lemma clusters_loop_Forall (Q : Elems -> Prop) :
  (forall fuel s it cl, group qfn max_points fuel s [it] [] = Some cl -> Q cl) ->
  forall fuel s acc R,
    clusters_loop qfn max_points fuel s acc = Some R ->
    exists R', R = acc ++ R' /\ Forall Q R'.
Proof.
  intros HQ. induction fuel as [|fuel IH]; intros s acc R; [done|].
  rewrite clusters_loop_unfold. destruct s as [|it s].
  - intros [= <-]. exists []. by rewrite app_nil_r.
  - destruct (group _ _ _ _ _ _) as [cl|] eqn:Hg; [|done].
    intros (R' & -> & HR')%IH. exists (cl :: R'). rewrite <- app_assoc. split; [done|].
    constructor; [by eapply HQ|done].
Qed.

(** The clusters of the result hold the stored elements, each once. *)
Lemma clusters_loop_partition :
  index_query qfn ->
  forall fuel s acc R,
    NoDup (payloads s) ->
    clusters_loop qfn max_points fuel s acc = Some R ->
    exists R', R = acc ++ R' /\ concat R' ≡ₚ s.
Proof.
  intros Hq. induction fuel as [|fuel IH]; intros s acc R Hs; [done|].
  intros HR. pose proof (clusters_loop_storable _ _ _ _ HR) as Hst. revert HR.
  rewrite clusters_loop_unfold. destruct s as [|it s].
  - intros [= <-]. exists []. by rewrite app_nil_r.
  - destruct (group _ _ _ _ _ _) as [cl|] eqn:Hg; [|done].
    apply group_well_kept in Hg as (_ & Hnd & Hsub); [|done|done|apply well_kept_nil].
    intros (R' & -> & HR')%IH.
    + exists (cl :: R'). rewrite <- app_assoc. split; [done|].
      simpl. rewrite HR'. symmetry. by apply remove_all_found.
    + eapply sublist_NoDup; [exact Hs|]. apply fmap_sublist, remove_all_sublist.
Qed.

End LoopFacts.

(** ** The two query functions answer from the index *)

Lemma erase_far_sublist p dist tmp : erase_far p dist tmp `sublist_of` tmp.
Proof.
  cut (erase_far p dist tmp `sublist_of` tmp
       /\ forall e, erase_far p dist (e :: tmp) `sublist_of` e :: tmp); [by intros []|].
  induction tmp as [|e' rest [IH1 IH2]]; (split; [|intros e]); simpl.
  - done.
  - destruct (dist <? distance p e.1)%float; [by apply sublist_cons|done].
  - apply IH2.
  - destruct (dist <? distance p e.1)%float.
    + by apply sublist_cons, sublist_skip.
    + apply sublist_skip, IH2.
Qed.

Lemma insert_nearer_perm q e l : Index.insert_nearer q e l ≡ₚ e :: l.
Proof.
  induction l as [|e' l IH]; simpl; [done|].
  destruct (_ <=? _)%float; [|done]. rewrite IH. apply Permutation_swap.
Qed.

Lemma by_distance_perm q s : Index.by_distance q s ≡ₚ s.
Proof.
  induction s as [|e s IH]; simpl; [done|]. by rewrite insert_nearer_perm, IH.
Qed.

Lemma nearest_submseteq s q k : Index.nearest s q k ⊆+ s.
Proof.
  unfold Index.nearest. etrans; [apply submseteq_take|].
  by rewrite by_distance_perm.
Qed.

Lemma distance_query_ok dist max_points :
  index_query (fun s p => distance_queryfn s p dist max_points).
Proof.
  intros s p. unfold distance_queryfn.
  etrans; [apply sublist_submseteq, erase_far_sublist|apply nearest_submseteq].
Qed.

Lemma predicate_query_ok predicate : index_query (predicate_queryfn predicate).
Proof. intros s p. apply sublist_submseteq, sublist_filter. Qed.

Lemma build_index_eq indices pointfn :
  build_index indices pointfn = (fun idx => (pointfn idx, idx)) <$> indices.
Proof.
  unfold build_index.
  cut (forall acc, foldl (fun s idx => Index.insert (pointfn idx, idx) s) acc indices
                   = acc ++ ((fun idx => (pointfn idx, idx)) <$> indices)).
  { intros H. by rewrite H. }
  induction indices as [|i l IH]; intros acc; simpl; [by rewrite app_nil_r|].
  rewrite IH. unfold Index.insert. by rewrite <- app_assoc.
Qed.

Lemma build_index_payloads indices pointfn :
  payloads (build_index indices pointfn) = indices.
Proof.
  rewrite build_index_eq.
  induction indices as [|i l IH]; [done|]. rewrite !fmap_cons. simpl. by f_equal.
Qed.

Lemma cluster_eq fuel indices pointfn q max_points :
  cluster fuel indices pointfn q max_points =
    cluster_index (query_fn q max_points) max_points fuel
                  (build_index indices pointfn).
Proof. by destruct q. Qed.

Lemma query_fn_ok q max_points : index_query (query_fn q max_points).
Proof. destruct q; [apply distance_query_ok|apply predicate_query_ok]. Qed.

Lemma elem_of_concat {A} (x : A) (ls : list (list A)) :
  x ∈ concat ls <-> exists l, x ∈ l /\ l ∈ ls.
Proof.
  induction ls as [|l ls IH]; simpl.
  - split; [by intros ?%elem_of_nil|]. by intros (l & _ & ?%elem_of_nil).
  - rewrite elem_of_app, IH. split.
    + intros [Hx|(l' & Hx & Hl')]; [exists l|exists l']; split; try done; [by left|by right].
    + intros (l' & Hx & [->|Hl']%elem_of_cons); [by left|right; eauto].
Qed.

Lemma NoDup_concat_unique {A} (res : list (list A)) i k k' c c' :
  NoDup (concat res) ->
  res !! k = Some c -> i ∈ c -> res !! k' = Some c' -> i ∈ c' -> k' = k.
Proof.
  revert k k'. induction res as [|c0 res IH]; intros k k'; [done|].
  simpl. intros (Hc0 & Hdis & Hres)%NoDup_app.
  destruct k as [|k], k' as [|k']; simpl.
  - done.
  - intros [= <-] Hi Hk' Hi'. exfalso. apply (Hdis i Hi).
    apply elem_of_concat. exists c'. split; [done|]. by eapply list_elem_of_lookup_2.
  - intros Hk Hi [= <-] Hi'. exfalso. apply (Hdis i Hi').
    apply elem_of_concat. exists c. split; [done|]. by eapply list_elem_of_lookup_2.
  - intros Hk Hi Hk' Hi'. f_equal. by eapply IH.
Qed.

Lemma NoDup_concat_part {A} (res : list (list A)) c :
  NoDup (concat res) -> c ∈ res -> NoDup c.
Proof.
  intros Hnd [k Hk]%list_elem_of_lookup.
  apply take_drop_middle in Hk. rewrite <- Hk, concat_app in Hnd. simpl in Hnd.
  apply NoDup_app in Hnd as (_ & _ & Hnd). by apply NoDup_app in Hnd as (? & _).
Qed.

(** ** Termination *)

(** A payload that a sorted range and what [set_difference] keeps of
    another hold together, they hold no more often than any list that
    holds it as often as each of the two ranges. *)
Lemma set_difference_room (A : Elems) : forall (B : Elems) (M : list N),
  StronglySorted payload_le A -> StronglySorted payload_le B ->
  payloads A ⊆+ M -> payloads B ⊆+ M ->
  payloads (set_difference A B ++ B) ⊆+ M.
Proof.
  induction A as [|a A IH]; intros B M SA SB HA HB; [by destruct B|].
  apply StronglySorted_inv in SA as [SA HaA].
  revert M SB HA HB. induction B as [|b B IHB]; intros M SB HA HB.
  { by rewrite set_difference_nil_r, app_nil_r. }
  pose proof SB as SB'. apply StronglySorted_inv in SB' as [SB' HbB].
  rewrite set_difference_cons. unfold cmp.
  destruct (N.ltb_spec a.2 b.2) as [Hlt|Hge].
  - rewrite fmap_cons in HA. apply submseteq_cons_l in HA as (M' & HM & HA').
    simpl. rewrite HM. apply submseteq_skip. apply IH; [done|done|done|].
    rewrite HM in HB. apply submseteq_cons_r in HB as [HB|(l' & Hl' & _)]; [done|].
    exfalso. assert (Hin : a.2 ∈ payloads (b :: B)) by (rewrite Hl'; by left).
    apply list_elem_of_fmap in Hin as (e & Heq & [->|He]%elem_of_cons); [lia|].
    eapply Forall_forall in HbB; [|exact He]. unfold payload_le in HbB. lia.
  - rewrite fmap_app, fmap_cons, <- Permutation_middle, <- fmap_app.
    rewrite fmap_cons in HB. apply submseteq_cons_l in HB as (M' & HM & HB').
    rewrite HM. apply submseteq_skip.
    destruct (N.ltb_spec b.2 a.2) as [Hlt|Hge'].
    + apply IHB; [done| |done].
      rewrite HM in HA. apply submseteq_cons_r in HA as [HA|(l' & Hl' & _)]; [done|].
      exfalso. assert (Hin : b.2 ∈ payloads (a :: A)) by (rewrite Hl'; by left).
      apply list_elem_of_fmap in Hin as (e & Heq & [->|He]%elem_of_cons); [lia|].
      eapply Forall_forall in HaA; [|exact He]. unfold payload_le in HaA. lia.
    + apply IH; [done|done| |done].
      rewrite HM, fmap_cons in HA. replace (a.2) with (b.2) in HA by lia.
      by apply (submseteq_app_inv_l _ _ [b.2]) in HA.
Qed.

Lemma remove_shorter c s :
  c ∈ s -> storable c -> (length (Index.remove c s) < length s)%nat.
Proof.
  intros Hin Hc. induction s as [|e s IH]; [by apply elem_of_nil in Hin|].
  simpl. destruct (Index.equal_to c e) eqn:Heq; simpl; [lia|].
  apply elem_of_cons in Hin as [->|Hin]; [unfold storable in Hc; congruence|].
  specialize (IH Hin). lia.
Qed.

(** Removing the members of a cluster that is not empty makes the index
    shorter. *)
Lemma remove_all_shorter cl s :
  cl ≠ [] -> cl ⊆ s -> Forall storable s ->
  (length (remove_all cl s) < length s)%nat.
Proof.
  intros Hne Hsub Hst. destruct cl as [|c cl]; [done|].
  assert (Hc : c ∈ s) by (apply Hsub; by left).
  change (remove_all (c :: cl) s) with (remove_all cl (Index.remove c s)).
  pose proof (sublist_length _ _ (remove_all_sublist cl (Index.remove c s))).
  assert (storable c) by (by eapply Forall_forall in Hst).
  pose proof (remove_shorter c s Hc H0). lia.
Qed.

Section Termination.

Variable qfn : Index3D -> SpatElement -> Elems.
Variable max_points : N.
Hypothesis qfn_ok : index_query qfn.

Lemma newpts_length s p cl :
  (length (group_step qfn max_points s p cl).1.2 <= length s)%nat.
Proof.
  unfold group_step; simpl.
  etrans; [apply sublist_length, set_difference_sublist|].
  rewrite sort_cmp_length. apply submseteq_length, qfn_ok.
Qed.

(** When [group] calls itself, the cluster has just grown. *)
Lemma group_step_progress s p cl :
  Z.of_nat (length s) < 2 ^ 31 ->
  max_points = 0%N \/ vec_size cl <= Z.of_N max_points ->
  (group_step qfn max_points s p cl).2 = true ->
  (length cl < length (group_step qfn max_points s p cl).1.1)%nat.
Proof.
  intros Hlen Hcap. pose proof (newpts_length s p cl) as Hn. revert Hn.
  unfold group_step; simpl.
  set (newpts := set_difference (sort_cmp (qfn s p)) cl). intros Hn.
  rewrite sort_cmp_length, length_app, length_take.
  rewrite fill_count_exact by (unfold vec_size in *; lia).
  intros [Hne Hroom]%andb_true_iff.
  apply negb_true_iff, bool_decide_eq_false in Hne.
  assert (0 < length newpts)%nat by (destruct newpts; [done|simpl; lia]).
  revert Hroom. unfold vec_size in *.
  destruct (negb (max_points =? 0)%N
            && (Z.of_N max_points <? Z.of_nat (length newpts) + Z.of_nat (length cl))) eqn:Hc.
  - apply andb_true_iff in Hc as [Hc1 Hc2].
    apply negb_true_iff, N.eqb_neq in Hc1. apply Z.ltb_lt in Hc2.
    intros [?%N.eqb_eq|Hlt%Z.ltb_lt]%orb_true_iff; [done|].
    rewrite sort_cmp_length, length_app, length_take in Hlt. lia.
  - intros _. lia.
Qed.

(** The members of a cluster are stored. *)
Lemma group_step_stored s p cl :
  cl ⊆ s -> (group_step qfn max_points s p cl).1.1 ⊆ s.
Proof.
  intros Hsub e. unfold group_step; simpl.
  intros [He|He]%sort_cmp_elem%elem_of_app; [by apply Hsub|].
  eapply elem_of_submseteq; [|apply qfn_ok].
  apply sort_cmp_elem. eapply set_difference_elem.
  eapply sublist_subseteq; [apply sublist_take|exact He].
Qed.

Lemma group_stored fuel s pts cl cl' :
  group qfn max_points fuel s pts cl = Some cl' -> cl ⊆ s -> cl' ⊆ s.
Proof.
  apply (group_inv _ _ (fun cl => cl ⊆ s)). intros p cl0. apply group_step_stored.
Qed.

(** A cluster holds a payload no more often than the index does. *)
Lemma group_step_counted s p cl :
  StronglySorted payload_le cl -> payloads cl ⊆+ payloads s ->
  payloads (group_step qfn max_points s p cl).1.1 ⊆+ payloads s.
Proof.
  intros Hsort Hcl. unfold group_step; simpl.
  set (tmp := sort_cmp (qfn s p)). set (newpts := set_difference tmp cl).
  rewrite sort_cmp_payloads, fmap_app.
  etrans; [|apply (set_difference_room tmp cl (payloads s))]; try done.
  - fold newpts. rewrite fmap_app, (Permutation_app_comm (payloads newpts)).
    apply submseteq_app; [done|].
    apply sublist_submseteq, fmap_sublist, sublist_take.
  - apply sort_cmp_sorted.
  - unfold tmp. rewrite sort_cmp_payloads. by apply fmap_submseteq.
Qed.

Lemma group_counted fuel s pts cl cl' :
  group qfn max_points fuel s pts cl = Some cl' ->
  StronglySorted payload_le cl -> payloads cl ⊆+ payloads s ->
  payloads cl' ⊆+ payloads s.
Proof.
  intros Hg Hsort Hcl.
  apply (group_inv _ _ (fun c => StronglySorted payload_le c
                                /\ payloads c ⊆+ payloads s) s)
    with (cl' := cl') in Hg; [by destruct Hg| |done].
  intros p c [Hs Hc]. split; [apply group_step_sorted|by apply group_step_counted].
Qed.

Lemma group_step_longer s p cl :
  (length cl <= length (group_step qfn max_points s p cl).1.1)%nat.
Proof. unfold group_step; simpl. rewrite sort_cmp_length, length_app. lia. Qed.

Lemma group_longer fuel s pts cl cl' :
  group qfn max_points fuel s pts cl = Some cl' -> (length cl <= length cl')%nat.
Proof.
  intros Hg.
  apply (group_inv _ _ (fun c => (length cl <= length c)%nat) s) with (cl' := cl') in Hg;
    [done| |done].
  intros p c Hc. etrans; [exact Hc|apply group_step_longer].
Qed.

(** [group] returns: its depth is bounded by the number of stored
    elements that are not in the cluster yet. *)
Lemma group_terminates s :
  Z.of_nat (length s) < 2 ^ 31 ->
  forall n pts cl,
    StronglySorted payload_le cl -> payloads cl ⊆+ payloads s ->
    max_points = 0%N \/ vec_size cl <= Z.of_N max_points ->
    (length s - length cl <= n)%nat ->
    exists cl', group qfn max_points (S n) s pts cl = Some cl'.
Proof.
  intros Hlen.
  assert (Hstep : forall p cl,
             StronglySorted payload_le cl -> payloads cl ⊆+ payloads s ->
             max_points = 0%N \/ vec_size cl <= Z.of_N max_points ->
             let cl1 := (group_step qfn max_points s p cl).1.1 in
             StronglySorted payload_le cl1 /\ payloads cl1 ⊆+ payloads s
             /\ (max_points = 0%N \/ vec_size cl1 <= Z.of_N max_points)
             /\ (length cl <= length cl1 <= length s)%nat).
  { intros p cl Hsort Hcl Hcap. split; [apply group_step_sorted|].
    pose proof (group_step_counted s p cl Hsort Hcl) as Hc1.
    split; [done|]. split.
    - destruct Hcap as [?|?]; [by left|].
      destruct (decide (max_points = 0%N)); [by left|right]. by apply group_step_cap.
    - split; [apply group_step_longer|].
      apply submseteq_length in Hc1. by rewrite !length_fmap in Hc1. }
  induction n as [|n IH]; induction pts as [|p pts IHp];
    intros cl Hsort Hcl Hcap Hm; try (eexists; apply group_nil).
  - rewrite group_cons.
    destruct (Hstep p cl Hsort Hcl Hcap) as (Hs1 & Hc1 & Hcap1 & Hl1).
    pose proof (group_step_progress s p cl Hlen Hcap) as Hpr.
    destruct (group_step qfn max_points s p cl) as [[cl1 newpts] again]; simpl in *.
    destruct again; [specialize (Hpr eq_refl); lia|].
    apply IHp; [done|done|done|lia].
  - rewrite group_cons.
    destruct (Hstep p cl Hsort Hcl Hcap) as (Hs1 & Hc1 & Hcap1 & Hl1).
    pose proof (group_step_progress s p cl Hlen Hcap) as Hpr.
    destruct (group_step qfn max_points s p cl) as [[cl1 newpts] again]; simpl in *.
    destruct again.
    + specialize (Hpr eq_refl).
      destruct (IH newpts cl1) as [cl2 Hcl2]; [done|done|done|lia|].
      rewrite Hcl2. apply IHp.
      * by eapply group_sorted.
      * by eapply group_counted.
      * destruct Hcap1 as [?|?]; [by left|].
        destruct (decide (max_points = 0%N)); [by left|right].
        eapply group_cap; [done|exact Hcl2|done].
      * pose proof (group_longer _ _ _ _ _ Hcl2). lia.
    + apply IHp; [done|done|done|lia].
Qed.

(** A seed whose query finds something ends up with a cluster that is
    not empty. *)
Lemma seed_cluster fuel s it cl :
  Z.of_nat (length s) < 2 ^ 31 -> qfn s it ≠ [] ->
  group qfn max_points fuel s [it] [] = Some cl -> cl ≠ [].
Proof.
  intros Hlen Hq. destruct fuel as [|fuel]; [done|]. rewrite group_cons.
  pose proof (newpts_length s it []) as Hn.
  assert (Hne : (group_step qfn max_points s it []).1.1 ≠ []).
  { revert Hn. unfold group_step; simpl. rewrite set_difference_nil_r.
    set (tmp := sort_cmp (qfn s it)). intros Hn.
    assert (0 < length tmp)%nat.
    { unfold tmp. rewrite sort_cmp_length. destruct (qfn s it); [done|simpl; lia]. }
    intros Hnil%(f_equal length). revert Hnil.
    rewrite sort_cmp_length, length_take.
    rewrite fill_count_exact; unfold vec_size; simpl; [|lia|lia].
    destruct (negb (max_points =? 0)%N && _) eqn:Hc; [|lia].
    apply andb_true_iff in Hc as [Hc1 _]. apply negb_true_iff, N.eqb_neq in Hc1. lia. }
  destruct (group_step qfn max_points s it []) as [[cl1 newpts] again]; simpl in *.
  destruct cl1 as [|e cl1]; [done|].
  assert (Hin : e ∈ e :: cl1) by by left.
  destruct again.
  - destruct (group _ _ _ _ _ _) as [cl2|] eqn:Hg; [|done].
    rewrite group_nil. intros [= <-]. eapply group_grows in Hin; [|exact Hg].
    intros ->. by apply elem_of_nil in Hin.
  - rewrite group_nil. by intros [= <-].
Qed.

(** The loop empties the index within as many rounds as it has
    elements. *)
Lemma clusters_loop_terminates : forall fuel s acc,
  Forall storable s -> Z.of_nat (length s) < 2 ^ 31 ->
  answers_seed qfn s -> (length s < fuel)%nat ->
  exists R, clusters_loop qfn max_points fuel s acc = Some R.
Proof.
  induction fuel as [|fuel IH]; intros s acc Hst Hlen Hans Hf; [lia|].
  rewrite clusters_loop_unfold. destruct s as [|it s]; [by eexists|].
  destruct (group_terminates (it :: s) Hlen fuel [it] []) as [cl Hcl].
  { constructor. } { apply submseteq_nil_l. }
  { right. unfold vec_size; simpl; lia. } { simpl in *; lia. }
  rewrite Hcl.
  pose proof (group_stored _ _ _ _ _ Hcl (list_subseteq_nil _)) as Hsub.
  pose proof (seed_cluster _ _ _ _ Hlen (Hans it s (reflexivity _)) Hcl) as Hne.
  pose proof (remove_all_shorter cl (it :: s) Hne Hsub Hst) as Hshort.
  apply IH.
  - apply Forall_forall. intros e He. eapply Forall_forall in Hst; [exact Hst|].
    eapply sublist_subseteq; [apply remove_all_sublist|done].
  - lia.
  - intros it' rest Hsub'. apply Hans. etrans; [exact Hsub'|apply remove_all_sublist].
  - lia.
Qed.

Lemma cluster_index_terminates s :
  Forall storable s -> Z.of_nat (length s) < 2 ^ 31 ->
  answers_seed qfn s ->
  exists res, cluster_index qfn max_points (S (length s)) s = Some res.
Proof.
  intros Hst Hlen Hans. unfold cluster_index.
  destruct (clusters_loop_terminates (S (length s)) s [] Hst Hlen Hans) as [R ->];
    [lia|by eexists].
Qed.

End Termination.

(** ** Results on the clustering *)

Lemma sorted_le_lt (l : list N) :
  StronglySorted N.le l -> NoDup l -> StronglySorted N.lt l.
Proof.
  induction 1 as [|a l Hs IH Ha]; [constructor|].
  intros [Hna Hnd]%NoDup_cons. constructor; [by apply IH|].
  apply Forall_forall. intros b Hb. eapply Forall_forall in Ha; [|exact Hb].
  assert (a ≠ b) by (by intros ->). lia.
Qed.

Lemma cluster_clusters fuel indices pointfn q max_points res :
  cluster fuel indices pointfn q max_points = Some res ->
  exists R,
    clusters_loop (query_fn q max_points) max_points fuel
                  (build_index indices pointfn) [] = Some R
    /\ res = map (fun cl => payloads cl) R.
Proof.
  rewrite cluster_eq. unfold cluster_index.
  destruct (clusters_loop _ _ _ _ _) as [R|]; [|done].
  intros [= <-]. by exists R.
Qed.

(** The clusters of a result, one after the other, are the input indices in
    some order. *)
Lemma cluster_concat fuel indices pointfn q max_points res :
  NoDup indices ->
  cluster fuel indices pointfn q max_points = Some res ->
  concat res ≡ₚ indices.
Proof.
  intros Hnd (R & HR & ->)%cluster_clusters.
  apply clusters_loop_partition in HR as (R' & -> & Hp);
    [|apply query_fn_ok|by rewrite build_index_payloads].
  simpl. rewrite <- (build_index_payloads indices pointfn), <- Hp.
  by rewrite <- concat_map.
Qed.

(** C1.  With distinct payload indices, whichever query strategy and
    whichever [max_points]: when [cluster] returns, its clusters split the
    input indices; every index lies in exactly one cluster, and a cluster
    holds input indices only, none of them twice. *)
Theorem cluster_partition fuel indices pointfn q max_points res :
  NoDup indices ->
  cluster fuel indices pointfn q max_points = Some res ->
  partition_of res indices.
Proof.
  intros Hnd Hres.
  pose proof (cluster_concat _ _ _ _ _ _ Hnd Hres) as Hp.
  assert (Hnd' : NoDup (concat res)) by by rewrite Hp.
  split.
  - intros i Hi. rewrite <- Hp in Hi.
    apply elem_of_concat in Hi as (c & Hic & Hc).
    apply list_elem_of_lookup in Hc as [k Hk].
    exists k, c. split; [done|]. split; [done|].
    intros k' c' Hk' Hi'. by eapply NoDup_concat_unique.
  - intros c Hc. split; [by eapply NoDup_concat_part|].
    intros i Hi. rewrite <- Hp. apply elem_of_concat. by exists c.
Qed.

Lemma cluster_partition_witness :
  partition_of [[0; 1]; [2]]%N [0; 1; 2]%N.
Proof.
  apply (cluster_partition 4%nat [0; 1; 2]%N three_points (ByDistance 1) 2).
  - by apply (bool_decide_unpack _).
  - by vm_compute.
Defined.

(** C3.  With a positive [max_points], no cluster that [cluster] returns
    has more than [max_points] members, under either query strategy; and
    a round of the grouping step that starts within the cap ends within
    it, whatever the query function. *)
Theorem cluster_size_cap max_points :
  max_points ≠ 0%N ->
  (forall fuel indices pointfn q res,
      cluster fuel indices pointfn q max_points = Some res ->
      Forall (fun c => (N.of_nat (length c) <= max_points)%N) res)
  /\ (forall qfn s p cl,
        vec_size cl <= Z.of_N max_points ->
        vec_size (group_step qfn max_points s p cl).1.1 <= Z.of_N max_points).
Proof.
  intros Hmp. split; [|intros; by apply group_step_cap].
  intros fuel indices pointfn q res (R & HR & ->)%cluster_clusters.
  apply (clusters_loop_Forall _ _ (fun cl => vec_size cl <= Z.of_N max_points))
    in HR as (R' & -> & HR').
  - simpl. apply Forall_fmap. eapply Forall_impl; [exact HR'|].
    intros cl Hcl. simpl. unfold vec_size in Hcl. rewrite length_fmap. lia.
  - intros f s it cl Hg. eapply group_cap; [done|exact Hg|]. unfold vec_size; simpl; lia.
Qed.

Lemma cluster_size_cap_witness :
  Forall (fun c => (N.of_nat (length c) <= 1)%N) [[0]; [1]; [2]]%N.
Proof.
  refine (proj1 (cluster_size_cap 1 _) 4%nat [0; 1; 2]%N three_points (ByDistance 1) _ _).
  - done.
  - by vm_compute.
Defined.

(** C10.  Every cluster that [cluster] returns lists its payload indices in
    ascending order, and in strictly ascending order when the input
    indices are distinct; every round of the grouping step leaves the
    cluster sorted. *)
Theorem cluster_sorted fuel indices pointfn q max_points res :
  cluster fuel indices pointfn q max_points = Some res ->
  Forall (StronglySorted N.le) res
  /\ (NoDup indices -> Forall (StronglySorted N.lt) res)
  /\ (forall qfn s p cl,
        StronglySorted payload_le (group_step qfn max_points s p cl).1.1).
Proof.
  intros Hres.
  assert (Hle : Forall (StronglySorted N.le) res).
  { apply cluster_clusters in Hres as (R & HR & ->).
    apply (clusters_loop_Forall _ _ (StronglySorted payload_le))
      in HR as (R' & -> & HR').
    - simpl. apply Forall_fmap. eapply Forall_impl; [exact HR'|].
      intros cl Hcl. simpl. by apply (StronglySorted_fmap _ payload_le N.le).
    - intros f s it cl Hg. eapply group_sorted; [exact Hg|constructor]. }
  split; [done|]. split; [|intros; apply group_step_sorted].
  intros Hnd. pose proof (cluster_concat _ _ _ _ _ _ Hnd Hres) as Hp.
  apply Forall_forall. intros c Hc. apply sorted_le_lt.
  - by eapply Forall_forall in Hle.
  - eapply NoDup_concat_part; [|exact Hc]. by rewrite Hp.
Qed.

Lemma cluster_sorted_witness :
  Forall (StronglySorted N.lt) [[0; 1]; [2]]%N.
Proof.
  refine (proj1 (proj2 (cluster_sorted 4%nat [1; 2; 0]%N three_points (ByDistance 1) 2 _ _)) _).
  - by vm_compute.
  - by apply (bool_decide_unpack _).
Defined.

(** A query function that finds nothing leaves every cluster empty, and an
    empty cluster takes nothing out of the index: the loop meets the same
    index again, round after round. *)
Lemma group_step_no_answer qfn max_points s p :
  qfn s p = [] -> group_step qfn max_points s p [] = ([], [], false).
Proof.
  intros Hq. unfold group_step. rewrite Hq. simpl. by rewrite take_nil.
Qed.

Lemma clusters_loop_no_answer qfn max_points :
  (forall s p, qfn s p = []) ->
  forall fuel s acc, s ≠ [] -> clusters_loop qfn max_points fuel s acc = None.
Proof.
  intros Hq. induction fuel as [|fuel IH]; intros s acc Hs; [done|].
  rewrite clusters_loop_unfold. destruct s as [|it s]; [done|].
  rewrite group_cons, group_step_no_answer by apply Hq. rewrite group_nil.
  by apply IH.
Qed.

Lemma distance_queryfn_uncapped s p dist : distance_queryfn s p dist 0 = [].
Proof. reflexivity. Qed.

Lemma cluster_dist_uncapped fuel indices pointfn dist :
  indices ≠ [] -> cluster_dist fuel indices pointfn dist 0 = None.
Proof.
  intros Hi. unfold cluster_dist, cluster_index.
  rewrite clusters_loop_no_answer; [done|intros; apply distance_queryfn_uncapped|].
  rewrite build_index_eq. by destruct indices.
Qed.

(** C2 (the code departs from the specification).  With [max_points = 0] the
    distance query asks the index for its [0] nearest elements and gets
    none: on the two pairs, with or without the far point, [cluster] never
    returns, whatever the fuel.  The predicate query, which does not pass
    [max_points] on to the index, returns the two pairs and the far point,
    and so does the distance query under the cap [2]. *)
Theorem cluster_pairs_uncapped :
  (forall fuel, cluster_dist fuel [0; 1; 2; 3]%N pairs_and_far 1 0 = None)
  /\ (forall fuel, cluster_dist fuel [0; 1; 2; 3; 4]%N pairs_and_far 1 0 = None)
  /\ cluster_pred 6 [0; 1; 2; 3; 4]%N pairs_and_far within_one 0
     = Some [[0; 1]; [2; 3]; [4]]%N
  /\ cluster_dist 6 [0; 1; 2; 3; 4]%N pairs_and_far 1 2
     = Some [[0; 1]; [2; 3]; [4]]%N.
Proof.
  split; [|split; [|split]].
  - intros fuel. by apply cluster_dist_uncapped.
  - intros fuel. by apply cluster_dist_uncapped.
  - by vm_compute.
  - by vm_compute.
Qed.

(** C4 (the code departs from the specification).  The loop that erases the far
    elements steps over the element after each erased one.  On four points
    at least [10] apart, with the threshold [1] and [max_points = 4], the
    query at the first point returns the third, [25] away, and [cluster]
    puts all four points, no two of them within the threshold, into one
    cluster. *)
Theorem cluster_line_far_neighbours :
  let s := build_index [0; 1; 2; 3]%N line_points in
  distance_queryfn s (line_points 0, 0%N) 1 4
    = [(line_points 0, 0%N); (line_points 2, 2%N)]
  /\ (1 <? distance (line_points 0) (line_points 2))%float = true
  /\ cluster_dist 5 [0; 1; 2; 3]%N line_points 1 4 = Some [[0; 1; 2; 3]]%N
  /\ Forall (fun i => Forall (fun j => i = j \/
                (1 <? distance (line_points i) (line_points j))%float = true)
              [0; 1; 2; 3]%N) [0; 1; 2; 3]%N.
Proof.
  split; [by vm_compute|]. split; [by vm_compute|]. split; [by vm_compute|].
  repeat constructor; by (left + (right; vm_compute)).
Qed.

(** C5, as the specification states it, fails: a predicate that holds of no pair
    answers no query, no cluster ever gets a member and the index never
    gets smaller. *)
Lemma cluster_pred_never_returns :
  ¬ exists fuel res,
      cluster fuel [0%N] (fun _ => Vec.Zero) (ByPredicate (fun _ _ => false)) 1
      = Some res.
Proof.
  intros (fuel & res & Hres). revert Hres. simpl. unfold cluster_pred, cluster_index.
  rewrite clusters_loop_no_answer; [done| |done].
  intros s p. unfold predicate_queryfn, Index.satisfies.
  apply elem_of_nil_inv. by intros e [He _]%list_elem_of_filter.
Qed.

(** ** When the distance query answers its seed *)

Lemma distance_comparable q e :
  distance q e.1 = sqrt (Index.comparable_distance q e).
Proof. reflexivity. Qed.

Lemma comparable_distance_self e :
  Index.comparable_distance e.1 e = 0%float
  \/ Index.comparable_distance e.1 e = nan.
Proof.
  unfold Index.comparable_distance, Vec.sub, Vec.dot, Vec.redux3; simpl.
  destruct (float_sub_self (Vec.x e.1)) as [->| ->],
    (float_sub_self (Vec.y e.1)) as [->| ->],
    (float_sub_self (Vec.z e.1)) as [->| ->]; vm_compute; auto.
Qed.

(** The first of the values in the order of their distance is the one
    inserted last, or one that is no farther. *)
Lemma insert_nearer_head q e l h t :
  Index.insert_nearer q e l = h :: t ->
  h = e
  \/ (Index.comparable_distance q h <=? Index.comparable_distance q e)%float = true.
Proof.
  destruct l as [|e' l]; simpl; [intros [= <- _]; by left|].
  destruct (_ <=? _)%float eqn:Hle; intros [= <- _]; [by right|by left].
Qed.

Lemma float_ltb_nan_r (d : float) : (d <? nan)%float = false.
Proof. rewrite FloatAxioms.ltb_spec. apply SFltb_nan_r. Qed.

Lemma float_leb_nan_r (d : float) : (d <=? nan)%float = false.
Proof. rewrite FloatAxioms.leb_spec. by destruct (Prim2SF d). Qed.

(** The seed is its own nearest neighbour, or a point at its place is:
    with a threshold that is not negative the erase loop keeps the first
    answer. *)
Lemma distance_answers dist max_points s :
  max_points ≠ 0%N -> (dist <? 0)%float = false ->
  answers_seed (fun s p => distance_queryfn s p dist max_points) s.
Proof.
  intros Hmp Hdist it rest _.
  unfold distance_queryfn, Index.nearest.
  change (Index.by_distance it.1 (it :: rest))
    with (Index.insert_nearer it.1 it (Index.by_distance it.1 rest)).
  destruct (Index.insert_nearer it.1 it (Index.by_distance it.1 rest))
    as [|h t] eqn:Hs.
  { exfalso. eapply (Permutation_nil_cons (x:=it)). rewrite <- Hs.
    apply insert_nearer_perm. }
  destruct (N.to_nat max_points) as [|k] eqn:Hk; [lia|]. simpl.
  assert (Hkeep : (dist <? distance it.1 h.1)%float = false).
  { rewrite distance_comparable.
    destruct (insert_nearer_head _ _ _ _ _ Hs) as [->|Hle].
    - destruct (comparable_distance_self it) as [->| ->].
      + by apply float_sqrt_nonpos.
      + apply float_ltb_nan_r.
    - destruct (comparable_distance_self it) as [H0|Hnan].
      + rewrite H0 in Hle. by apply float_sqrt_nonpos.
      + by rewrite Hnan, float_leb_nan_r in Hle. }
  by rewrite Hkeep.
Qed.

Lemma predicate_answers predicate s :
  (forall e, e ∈ s -> predicate e e = true) ->
  answers_seed (predicate_queryfn predicate) s.
Proof.
  intros Hrefl it rest Hsub Hnil.
  assert (Hin : it ∈ predicate_queryfn predicate (it :: rest) it).
  { apply list_elem_of_filter. split; [|by left].
    rewrite Hrefl; [done|]. eapply sublist_subseteq; [exact Hsub|by left]. }
  rewrite Hnil in Hin. by apply elem_of_nil in Hin.
Qed.

(** [cluster] returns on every input that its queries answer. *)
Lemma cluster_returns indices pointfn q max_points :
  Z.of_nat (length indices) < 2 ^ 31 ->
  Forall storable (build_index indices pointfn) ->
  seed_answered q max_points (build_index indices pointfn) ->
  exists res,
    cluster (S (length indices)) indices pointfn q max_points = Some res.
Proof.
  intros Hlen Hst Hq. rewrite cluster_eq.
  assert (Hl : length (build_index indices pointfn) = length indices).
  { by rewrite build_index_eq, length_fmap. }
  rewrite <- Hl. apply cluster_index_terminates.
  - apply query_fn_ok.
  - done.
  - by rewrite Hl.
  - destruct q as [dist|predicate]; simpl in *.
    + destruct Hq as (? & ?). by apply distance_answers.
    + by apply predicate_answers.
Qed.

(** ** Runs with their reservations *)

Lemma alloc_group_nil qfn max_points fuel s cl :
  Alloc.group qfn max_points (S fuel) s [] cl = Returns cl.
Proof. reflexivity. Qed.

Lemma alloc_group_cons qfn max_points fuel s p pts cl :
  Alloc.group qfn max_points (S fuel) s (p :: pts) cl =
    match qfn s p with
    | None => Throws
    | Some tmp =>
        let '(cl', newpts, again) :=
          group_step (fun _ _ => tmp) max_points s p cl in
        if again
        then match Alloc.group qfn max_points fuel s newpts cl' with
             | Returns cl'' => Alloc.group qfn max_points (S fuel) s pts cl''
             | Throws => Throws
             | Unfinished => Unfinished
             end
        else Alloc.group qfn max_points (S fuel) s pts cl'
    end.
Proof. reflexivity. Qed.

Lemma alloc_clusters_loop_unfold qfn max_points fuel s acc :
  Alloc.clusters_loop qfn max_points (S fuel) s acc =
    match s with
    | [] => Returns acc
    | it :: _ =>
        match Alloc.group qfn max_points (S fuel) s [it] [] with
        | Returns cl =>
            Alloc.clusters_loop qfn max_points fuel (remove_all cl s) (acc ++ [cl])
        | Throws => Throws
        | Unfinished => Unfinished
        end
    end.
Proof. reflexivity. Qed.

Section Granted.

(** A query function whose every call is granted its reservation, and
    what it answers. *)
Variable qfn_try : Index3D -> SpatElement -> option Elems.
Variable qfn : Index3D -> SpatElement -> Elems.
Variable max_points : N.
Hypothesis answers : forall s p, qfn_try s p = Some (qfn s p).

Lemma alloc_group_granted fuel s : forall pts cl,
  Alloc.group qfn_try max_points fuel s pts cl
  = granted (group qfn max_points fuel s pts cl).
Proof.
  induction fuel as [|fuel IH]; [done|].
  induction pts as [|p pts IHp]; intros cl; [done|].
  rewrite alloc_group_cons, answers, group_cons.
  change (group_step (fun _ _ => qfn s p) max_points s p cl)
    with (group_step qfn max_points s p cl).
  destruct (group_step qfn max_points s p cl) as [[cl1 newpts] again].
  destruct again; [|apply IHp].
  rewrite IH. destruct (group qfn max_points fuel s newpts cl1); [apply IHp|done].
Qed.

Lemma alloc_clusters_loop_granted : forall fuel s acc,
  Alloc.clusters_loop qfn_try max_points fuel s acc
  = granted (clusters_loop qfn max_points fuel s acc).
Proof.
  induction fuel as [|fuel IH]; intros s acc; [done|].
  rewrite alloc_clusters_loop_unfold, clusters_loop_unfold.
  destruct s as [|it s]; [done|]. rewrite alloc_group_granted.
  destruct (group qfn max_points (S fuel) (it :: s) [it] []); [apply IH|done].
Qed.

Lemma alloc_cluster_index_granted fuel s :
  Alloc.cluster_index qfn_try max_points fuel s
  = granted (cluster_index qfn max_points fuel s).
Proof.
  unfold Alloc.cluster_index, cluster_index. rewrite alloc_clusters_loop_granted.
  by destruct (clusters_loop qfn max_points fuel s []).
Qed.

End Granted.

(** With its reservations granted, [cluster] ends as the run of the
    engine does. *)
Lemma alloc_cluster_granted heap fuel indices pointfn q max_points :
  Alloc.reserve heap max_points = true ->
  Alloc.cluster heap fuel indices pointfn q max_points
  = granted (cluster fuel indices pointfn q max_points).
Proof.
  intros Hres. destruct q as [dist|predicate]; simpl.
  - unfold Alloc.cluster_dist, cluster_dist.
    apply alloc_cluster_index_granted. intros s p.
    unfold Alloc.distance_queryfn. by rewrite Hres.
  - unfold Alloc.cluster_pred, cluster_pred.
    apply alloc_cluster_index_granted. intros s p.
    unfold Alloc.predicate_queryfn. by rewrite Hres.
Qed.

(** With its reservation refused, the first query throws. *)
Lemma alloc_cluster_refused heap fuel indices pointfn q max_points :
  Alloc.reserve heap max_points = false -> indices ≠ [] ->
  Alloc.cluster heap (S fuel) indices pointfn q max_points = Throws.
Proof.
  intros Hres Hne. destruct indices as [|i indices]; [done|].
  destruct q as [dist|predicate]; simpl;
    unfold Alloc.cluster_dist, Alloc.cluster_pred, Alloc.cluster_index;
    rewrite build_index_eq, fmap_cons, alloc_clusters_loop_unfold, alloc_group_cons;
    unfold Alloc.distance_queryfn, Alloc.predicate_queryfn; by rewrite Hres.
Qed.

(** C5, amended.  On fewer than [2^31] points with coordinates that are not
    NaN, when the allocator grants the reservation of [max_points]
    elements that every query starts with, [cluster] returns, within one
    round per point: under the predicate strategy, for every [max_points],
    when the predicate holds of each point with itself; under the distance
    strategy, when [max_points] is positive and the threshold is not
    negative.  When the allocator refuses the reservation, the first query
    throws and [cluster] is left by [std::bad_alloc]: with room for [16]
    elements, three points are clustered under the caps [2] and [0], and
    the caps [17] and [4294967295] end in the exception. *)
Theorem cluster_terminates :
  (forall heap indices pointfn q max_points,
      Z.of_nat (length indices) < 2 ^ 31 ->
      Forall storable (build_index indices pointfn) ->
      seed_answered q max_points (build_index indices pointfn) ->
      (Alloc.reserve heap max_points = true ->
       exists res,
         Alloc.cluster heap (S (length indices)) indices pointfn q max_points
         = Returns res)
      /\ (Alloc.reserve heap max_points = false -> indices ≠ [] ->
          forall fuel,
            Alloc.cluster heap (S fuel) indices pointfn q max_points = Throws))
  /\ Alloc.cluster 16 4 [0; 1; 2]%N three_points (ByDistance 1) 2
     = Returns [[0; 1]; [2]]%N
  /\ Alloc.cluster 16 4 [0; 1; 2]%N three_points (ByPredicate within_one) 0
     = Returns [[0; 1]; [2]]%N
  /\ Alloc.cluster 16 4 [0; 1; 2]%N three_points (ByDistance 1) 17 = Throws
  /\ Alloc.cluster 16 4 [0; 1; 2]%N three_points (ByPredicate within_one)
                   4294967295
     = Throws.
Proof.
  split; [|repeat split; by vm_compute].
  intros heap indices pointfn q max_points Hlen Hst Hq. split.
  - intros Hres. rewrite alloc_cluster_granted by done.
    destruct (cluster_returns indices pointfn q max_points Hlen Hst Hq) as [res ->].
    by exists res.
  - intros Hres Hne fuel. by apply alloc_cluster_refused.
Qed.

Lemma cluster_terminates_witness :
  exists res,
    Alloc.cluster 16 4 [0; 1; 1]%N
                  (fun i => if (i =? 1)%N then Vec.mk infinity 0 0 else Vec.Zero)
                  (ByDistance 1) 2
    = Returns res.
Proof.
  refine (proj1 (proj1 cluster_terminates 16%N [0; 1; 1]%N
                   (fun i => if (i =? 1)%N then Vec.mk infinity 0 0 else Vec.Zero)
                   (ByDistance 1) 2%N _ _ _) _).
  - by vm_compute.
  - by apply (bool_decide_unpack _).
  - split; [done|by vm_compute].
  - reflexivity.
Defined.

(** ** Facts on [normals] *)

(** Sorting by the coordinate sum rearranges the range, and leaves no
    element behind one of greater sum. *)
Lemma SFltb_asym a b : SFltb a b = true -> SFltb b a = false.
Proof.
  unfold SFltb, SFcompare.
  destruct a as [sa|sa| |sa ma ea], b as [sb|sb| |sb mb eb]; sf_cases.
Qed.

Lemma float_ltb_asym (a b : float) :
  (a <? b)%float = true -> (b <? a)%float = false.
Proof. rewrite !FloatAxioms.ltb_spec. apply SFltb_asym. Qed.

Lemma linear_insert_perm val back : linear_insert val back ≡ₚ val :: back.
Proof.
  induction back as [|next back IH]; simpl; [done|].
  destruct (_ <? _)%float; [|done]. rewrite IH. apply Permutation_swap.
Qed.

Lemma insertion_step_perm back val : insertion_step back val ≡ₚ val :: back.
Proof.
  unfold insertion_step. destruct (last back) as [first|] eqn:Hl.
  - destruct (_ <? _)%float; [|apply linear_insert_perm].
    symmetry. apply Permutation_cons_append.
  - apply last_None in Hl as ->. done.
Qed.

Lemma sort_by_sum_perm l : sort_by_sum l ≡ₚ l.
Proof.
  unfold sort_by_sum. rewrite reverse_Permutation.
  cut (forall acc, foldl insertion_step acc l ≡ₚ acc ++ l).
  { intros H. by rewrite H. }
  induction l as [|v l IH]; intros acc; simpl; [by rewrite app_nil_r|].
  rewrite IH, insertion_step_perm. simpl. apply Permutation_middle.
Qed.

Lemma linear_insert_sorted val back :
  Sorted (flip sum_le) back -> Sorted (flip sum_le) (linear_insert val back).
Proof.
  induction back as [|next back IH]; simpl; [by repeat constructor|].
  intros Hs. apply Sorted_inv in Hs as [Hs Hhd].
  destruct (Vec.sum val <? Vec.sum next)%float eqn:Hlt.
  - constructor; [by apply IH|].
    destruct back as [|n2 back]; simpl.
    + constructor. unfold flip, sum_le. by apply float_ltb_asym.
    + destruct (Vec.sum val <? Vec.sum n2)%float.
      * constructor. by apply HdRel_inv in Hhd.
      * constructor. unfold flip, sum_le. by apply float_ltb_asym.
  - constructor; [by constructor|]. constructor. exact Hlt.
Qed.

Lemma insertion_step_sorted back val :
  Sorted (flip sum_le) back -> Sorted (flip sum_le) (insertion_step back val).
Proof.
  intros Hs. unfold insertion_step. destruct (last back) as [first|] eqn:Hl.
  - destruct (Vec.sum val <? Vec.sum first)%float eqn:Hlt;
      [|by apply linear_insert_sorted].
    apply Sorted_snoc; [done|]. apply last_Some in Hl as [back' ->].
    constructor. unfold flip, sum_le. by apply float_ltb_asym.
  - by repeat constructor.
Qed.

Lemma sort_by_sum_sorted l : Sorted sum_le (sort_by_sum l).
Proof.
  unfold sort_by_sum.
  apply (Sorted_reverse (flip sum_le)).
  cut (forall acc, Sorted (flip sum_le) acc ->
                   Sorted (flip sum_le) (foldl insertion_step acc l)).
  { intros H. apply H. constructor. }
  induction l as [|v l IH]; intros acc Hacc; simpl; [done|].
  by apply IH, insertion_step_sorted.
Qed.

Lemma unique_from_collapse a l :
  a :: unique_from a l = collapse_adjacent (a :: l).
Proof.
  revert a. induction l as [|b l IH]; intros a; simp collapse_adjacent; [done|].
  simpl. destruct (same_normal a b); [apply IH|]. by rewrite IH.
Qed.

Lemma unique_collapse l : unique l = collapse_adjacent l.
Proof. destruct l as [|a l]; [by simp collapse_adjacent|apply unique_from_collapse]. Qed.

Lemma mark_classify c v0 v1 v2 tri eps :
  mark c v0 v1 v2 tri eps = marks_of (classify c v0 v1 v2 tri eps).
Proof.
  unfold mark, classify, point_on_edge.
  unfold distance, line_distance. rewrite !float_abs_sqrt_ltb. cbn.
  repeat match goal with
         | |- context [(sqrt ?a <? eps)%float] =>
             destruct (sqrt a <? eps)%float eqn:?
         end; by cbn.
Qed.

Lemma degeneracy_classify c v0 v1 v2 tri eps :
  0 <= iX tri -> 0 <= iY tri -> 0 <= iZ tri ->
  degeneracy (mark c v0 v1 v2 tri eps) = classify c v0 v1 v2 tri eps.
Proof.
  intros HX HY HZ. rewrite mark_classify. unfold classify, degeneracy.
  apply Z.leb_le in HX, HY, HZ. cbn.
  repeat (case_decide; cbn); by rewrite ?HX, ?HY, ?HZ.
Qed.

Section NormalsFacts.

Variable pfn : N -> Vec3d.
Variable mesh : EigenMesh3D.
Variable eps : float.
Variable thr : unit -> bool.

Lemma scan_done keep faces :
  thr tt = false ->
  scan thr keep faces = Done (filter (fun ni => Is_true (keep ni)) faces).
Proof.
  intros Hthr. induction faces as [|ni faces IH]; simpl; [done|].
  rewrite Hthr, IH, filter_cons. by destruct (keep ni).
Qed.

Lemma has_vertex_vertices ni v : Is_true (has_vertex ni v) <-> v ∈ vertices ni.
Proof.
  unfold has_vertex, vertices. rewrite !orb_True, !Is_true_true, !Z.eqb_eq.
  rewrite !elem_of_cons, elem_of_nil.
  split; [intros [[->| ->]| ->]; auto|intros [->|[->|[->|[]]]]; auto].
Qed.

Lemma neighbours_faces m :
  thr tt = false ->
  neighbours mesh thr m = Done (faces_around mesh (degeneracy m)).
Proof.
  intros Hthr. unfold neighbours, degeneracy.
  destruct (0 <=? ic m); [|destruct ((0 <=? ia m) && (0 <=? ib m))];
    rewrite ?scan_done by done; simpl; [| |done]; f_equal;
    apply list_filter_iff; intros ni.
  - apply has_vertex_vertices.
  - by rewrite andb_True, !has_vertex_vertices.
Qed.

Lemma rows_lookup range ret ridx eidx :
  rows pfn mesh eps thr range = Done ret ->
  range !! ridx = Some eidx ->
  exists r, proc pfn mesh eps thr eidx = Done r /\ ret !! ridx = Some r.
Proof.
  revert ret ridx. induction range as [|e range IH]; intros ret ridx; [done|].
  simpl. destruct (proc pfn mesh eps thr e) as [r|] eqn:Hp; [|done].
  destruct (rows pfn mesh eps thr range) as [ret'|]; [|done].
  intros [= <-]. destruct ridx as [|ridx]; simpl.
  - intros [= <-]. by exists r.
  - by apply IH.
Qed.

Lemma normals_lookup pt_indices ret ridx eidx :
  V mesh ≠ [] -> F mesh ≠ [] ->
  normals pfn mesh eps thr pt_indices = Done ret ->
  pt_indices !! ridx = Some eidx ->
  exists r, proc pfn mesh eps thr eidx = Done r /\ ret !! ridx = Some r.
Proof.
  intros HV HF. unfold normals.
  destruct pt_indices as [|e l]; [done|].
  destruct (V mesh); [done|]. destruct (F mesh); [done|]. simpl.
  apply (rows_lookup (e :: l)).
Qed.

Lemma proc_not_cancelled eidx r :
  proc pfn mesh eps thr eidx = Done r -> thr tt = false.
Proof. unfold proc. by destruct (thr tt). Qed.

End NormalsFacts.

Lemma classify_members c v0 v1 v2 tri eps :
  match classify c v0 v1 v2 tri eps with
  | OnVertex v => v ∈ vertices tri
  | OnEdge a b => a ∈ vertices tri /\ b ∈ vertices tri
  | FaceInterior => True
  end.
Proof.
  unfold classify, vertices. cbn.
  repeat (case_decide; cbn); rewrite ?elem_of_cons; auto 6.
Qed.

Lemma faces_around_owner mesh tri cls :
  tri ∈ F mesh ->
  match cls with
  | OnVertex v => v ∈ vertices tri
  | OnEdge a b => a ∈ vertices tri /\ b ∈ vertices tri
  | FaceInterior => False
  end ->
  tri ∈ faces_around mesh cls.
Proof.
  intros Htri. destruct cls as [|v|a b]; [done| |]; intros H;
    by apply list_elem_of_filter.
Qed.

(** Normals that are near-equal but not adjacent after the sorting are
    not collapsed: the first and the third of these three vectors differ
    by less than [0.001] in every coordinate, the second lies between them
    in the order of the sums, and all three survive. *)
Example collapse_keeps_non_adjacent :
  let n1 := Vec.mk 1 0 0 in
  let n2 := Vec.mk 0 1 0.0002 in
  let n3 := Vec.mk 1 0.0005 0 in
  same_normal n1 n3 = true
  /\ sort_by_sum [n3; n1; n2] = [n1; n2; n3]
  /\ collapse_adjacent (sort_by_sum [n3; n1; n2]) = [n1; n2; n3].
Proof.
  split; [by vm_compute|]. split; [by vm_compute|].
  rewrite <- unique_collapse. by vm_compute.
Qed.

(** ** Results on the normals *)

(** C6.  For a query point whose closest point is classified on a vertex
    or on an edge of a face of the mesh, [normals] writes the mean (the sum
    over the count, not normalized again) of what collapsing adjacent
    near-equal normals leaves of the unit normals of all faces whose vertex
    triple holds that vertex, or both vertices of that edge, arranged so
    that no normal follows one of greater coordinate sum.  At the corner of
    three faces standing on each other the three normals stay and the row
    is a third of their sum; on the edge of two of them it is half the sum
    of the two; two near-equal normals that the sorting brings together
    count once; two that have the sum of a third between them in the scan
    both stay. *)
Theorem normals_degenerate :
  (forall pfn mesh eps thr pt_indices ret ridx eidx faceid c tri,
      normals pfn mesh eps thr pt_indices = Done ret ->
      pt_indices !! ridx = Some eidx ->
      squared_distance mesh (pfn eidx) = (faceid, c) ->
      0 <= faceid ->
      F mesh !! Z.to_nat faceid = Some tri ->
      Forall (fun v => 0 <= v < Z.of_nat (length (V mesh))) (vertices tri) ->
      let cls := classify c (rowV mesh (iX tri)) (rowV mesh (iY tri))
                          (rowV mesh (iZ tri)) tri eps in
      cls ≠ FaceInterior ->
      exists sorted,
        sorted ≡ₚ unit_normal mesh <$> faces_around mesh cls
        /\ Sorted sum_le sorted
        /\ ret !! ridx = Some (Some (mean (collapse_adjacent sorted))))
  /\ normals (fun _ => Vec.mk 0 0 0) corner_mesh 0.05 (fun _ => false) [0%N]
     = Done [Some (Vec.mk (1 / 3) (1 / 3) (1 / 3))]
  /\ normals (fun _ => Vec.mk 1 0 0) corner_mesh 0.05 (fun _ => false) [0%N]
     = Done [Some (Vec.mk 0 (1 / 2) (1 / 2))]
  /\ normals (fun _ => Vec.mk 0 0 0) step_mesh 0.05 (fun _ => false) [0%N]
     = Done [Some (Vec.mk (-1 / 2) 0 (1 / 2))]
  /\ normals (fun _ => Vec.mk 0 0 0) ridge_mesh 0.05 (fun _ => false) [0%N]
     = Done [Some (Vec.mk (1 / 3) 0 (2 / 3))].
Proof.
  split; [|repeat split; by vm_compute].
  intros pfn mesh eps thr pt_indices ret ridx eidx faceid c tri
         Hn Hidx Hsq Hface Htri Hv cls Hcls.
  assert (HF : F mesh ≠ []) by (intros H; by rewrite H in Htri).
  assert (HV : V mesh ≠ []).
  { intros H. rewrite H in Hv. apply Forall_cons in Hv as [? _]. simpl in *. lia. }
  destruct (normals_lookup _ _ _ _ _ _ _ _ HV HF Hn Hidx) as (r & Hp & ->).
  pose proof (proc_not_cancelled _ _ _ _ _ _ Hp) as Hthr.
  exists (sort_by_sum (unit_normal mesh <$> faces_around mesh cls)).
  split; [apply sort_by_sum_perm|]. split; [apply sort_by_sum_sorted|].
  f_equal. revert Hp. unfold proc. rewrite Hthr, Hsq.
  destruct (faceid <? 0) eqn:Hneg; [apply Z.ltb_lt in Hneg; lia|].
  assert (Hrow : rowF mesh faceid = tri) by (unfold rowF; by rewrite Htri).
  rewrite Hrow, neighbours_faces by done.
  assert (HX : 0 <= iX tri /\ 0 <= iY tri /\ 0 <= iZ tri).
  { unfold vertices in Hv. rewrite !Forall_cons in Hv. lia. }
  rewrite degeneracy_classify by apply HX. fold cls.
  assert (Hown : tri ∈ faces_around mesh cls).
  { apply faces_around_owner; [by eapply list_elem_of_lookup_2|].
    pose proof (classify_members c (rowV mesh (iX tri)) (rowV mesh (iY tri))
                  (rowV mesh (iZ tri)) tri eps) as Hm.
    fold cls in Hm. by destruct cls. }
  unfold mean.
  destruct (faces_around mesh cls) as [|ni neigh] eqn:Hfa;
    [by apply elem_of_nil in Hown|].
  intros [= <-]. by rewrite unique_collapse.
Qed.

Lemma normals_degenerate_witness :
  exists sorted,
    sorted ≡ₚ unit_normal corner_mesh <$> faces_around corner_mesh (OnVertex 0)
    /\ Sorted sum_le sorted
    /\ [Some (Vec.mk (1 / 3) (1 / 3) (1 / 3))] !! 0%nat
       = Some (Some (mean (collapse_adjacent sorted))).
Proof.
  refine (proj1 normals_degenerate (fun _ => Vec.mk 0 0 0) corner_mesh 0.05%float
            (fun _ => false) [0%N] [Some (Vec.mk (1 / 3) (1 / 3) (1 / 3))]
            0%nat 0%N 0 (Vec.mk 0 0 0) (mkVec3i 0 1 2) _ _ _ _ _ _ _).
  - by vm_compute.
  - reflexivity.
  - reflexivity.
  - lia.
  - reflexivity.
  - unfold vertices. repeat constructor; by vm_compute.
  - by vm_compute.
Defined.

(** C7.  The marks that [proc] sets follow the fixed order of the
    description: the vertices [v0], [v1], [v2] first, by their Euclidean
    distance to the closest point; then the edges [(v0,v1)], [(v1,v2)],
    [(v0,v2)], by the perpendicular distance to the line through the two
    end points; then the interior.  On the triangle with the corners
    [(0,0,0)], [(2,0,0)], [(0,2,0)] and the tolerance [0.05]: a point near
    a corner is on that vertex, though it is on the lines of two edges as
    well, and with a tolerance that reaches all three corners it is on the
    first; a point three edge lengths past the end of an edge is on that
    edge when it is [0.04] off its line and in the interior when it is
    [0.06] off, for each of the three edges; a point within the tolerance
    of the lines of two edges is on the first of them. *)
Theorem classification_order :
  (forall c v0 v1 v2 tri eps,
      mark c v0 v1 v2 tri eps = marks_of (classify c v0 v1 v2 tri eps))
  /\ (let v0 := Vec.mk 0 0 0 in
      let v1 := Vec.mk 2 0 0 in
      let v2 := Vec.mk 0 2 0 in
      let marked (c : Vec3d) (eps : float) := mark c v0 v1 v2 (mkVec3i 7 8 9) eps in
      marked (Vec.mk 0.03 0 0) 0.05%float = mkMarks (-1) (-1) 7
      /\ marked (Vec.mk 2.03 0 0) 0.05%float = mkMarks (-1) (-1) 8
      /\ marked (Vec.mk 0 1.97 0) 0.05%float = mkMarks (-1) (-1) 9
      /\ marked (Vec.mk 1 0 0) 3%float = mkMarks (-1) (-1) 7
      /\ marked (Vec.mk 5 0.04 0) 0.05%float = mkMarks 7 8 (-1)
      /\ marked (Vec.mk 5 0.06 0) 0.05%float = mkMarks (-1) (-1) (-1)
      /\ marked (Vec.mk 3.02 (-0.98) 0) 0.05%float = mkMarks 8 9 (-1)
      /\ marked (Vec.mk 3.05 (-0.95) 0) 0.05%float = mkMarks (-1) (-1) (-1)
      /\ marked (Vec.mk 0.04 5 0) 0.05%float = mkMarks 7 9 (-1)
      /\ marked (Vec.mk 0.06 5 0) 0.05%float = mkMarks (-1) (-1) (-1)
      /\ marked (Vec.mk 1.90761 0.03827 0) 0.05%float = mkMarks 7 8 (-1)
      /\ perpendicular_distance v0 v1 (Vec.mk 5 0.04 0) = 0.04%float
      /\ (3 <? euclidean_distance (Vec.mk 5 0.04 0) v1)%float = true
      /\ (0.0282 <? perpendicular_distance v1 v2 (Vec.mk 3.02 (-0.98) 0))%float = true
      /\ (perpendicular_distance v1 v2 (Vec.mk 3.02 (-0.98) 0) <? 0.0283)%float = true
      /\ (0.1 <? euclidean_distance (Vec.mk 1.90761 0.03827 0) v1)%float = true
      /\ (perpendicular_distance v0 v1 (Vec.mk 1.90761 0.03827 0) <? 0.05)%float = true
      /\ (perpendicular_distance v1 v2 (Vec.mk 1.90761 0.03827 0) <? 0.05)%float = true).
Proof.
  split; [apply mark_classify|]. cbv zeta. repeat split; by vm_compute.
Qed.



(** C9.  Empty inputs give empty results: [normals] returns no row when
    there is no query index, no vertex or no face, whatever the other
    arguments and the cancellation check; [cluster] returns no cluster for
    no index. *)
Theorem empty_inputs :
  (forall pfn mesh eps thr pt_indices,
      pt_indices = [] \/ V mesh = [] \/ F mesh = [] ->
      normals pfn mesh eps thr pt_indices = Done [])
  /\ (forall fuel pointfn q max_points,
        cluster (S fuel) [] pointfn q max_points = Some []).
Proof.
  split.
  - intros pfn mesh eps thr pt_indices H. unfold normals.
    destruct H as [->|[->| ->]]; simpl; [done| |].
    + by rewrite orb_true_r.
    + by rewrite orb_true_r.
  - intros fuel pointfn q max_points. by destruct q.
Qed.

Lemma empty_inputs_witness :
  normals (fun _ => Vec.Zero) square_mesh 0.05 (fun _ => true) [] = Done [].
Proof.
  apply (proj1 empty_inputs). by left.
Defined.

(** * Further results *)

(** ** The rounds of the loop *)

Section Fuel.

Variable qfn : Index3D -> SpatElement -> Elems.
Variable max_points : N.

(** A result of [group] does not depend on the fuel left over. *)
Lemma group_fuel_S fuel s : forall pts cl r,
  group qfn max_points fuel s pts cl = Some r ->
  group qfn max_points (S fuel) s pts cl = Some r.
Proof.
  induction fuel as [|fuel IH]; [done|].
  induction pts as [|p pts IHp]; intros cl r.
  - by rewrite !group_nil.
  - rewrite (group_cons _ _ (S fuel)), (group_cons _ _ fuel).
    destruct (group_step qfn max_points s p cl) as [[cl1 newpts] again].
    destruct again; [|apply IHp].
    destruct (group qfn max_points fuel s newpts cl1) as [cl2|] eqn:Hg; [|done].
    rewrite (IH _ _ _ Hg). apply IHp.
Qed.

Lemma group_fuel_le fuel fuel' s pts cl r :
  (fuel <= fuel')%nat ->
  group qfn max_points fuel s pts cl = Some r ->
  group qfn max_points fuel' s pts cl = Some r.
Proof.
  induction 1 as [|fuel' Hle IH]; [done|]. intros Hg. by apply group_fuel_S, IH.
Qed.

(** A round that ends with an empty cluster leaves the index as it was, and
    so does every round after it. *)
Lemma clusters_loop_empty_round fuel it s :
  group qfn max_points (S fuel) (it :: s) [it] [] = Some [] ->
  forall fuel' acc, (fuel' <= S fuel)%nat ->
    clusters_loop qfn max_points fuel' (it :: s) acc = None.
Proof.
  intros Hg. induction fuel' as [|fuel' IH]; intros acc Hle; [done|].
  rewrite clusters_loop_unfold.
  destruct (group qfn max_points (S fuel') (it :: s) [it] []) as [cl|] eqn:Hg'; [|done].
  rewrite (group_fuel_le _ _ _ _ _ _ Hle Hg') in Hg. injection Hg as ->.
  apply IH. lia.
Qed.

Lemma clusters_loop_nonempty : forall fuel s acc R,
  clusters_loop qfn max_points fuel s acc = Some R ->
  exists R', R = acc ++ R' /\ Forall (fun cl => cl ≠ []) R'.
Proof.
  induction fuel as [|fuel IH]; intros s acc R; [done|].
  rewrite clusters_loop_unfold. destruct s as [|it s].
  - intros [= <-]. exists []. by rewrite app_nil_r.
  - destruct (group _ _ _ _ _ _) as [cl|] eqn:Hg; [|done].
    destruct cl as [|e cl].
    + by rewrite (clusters_loop_empty_round fuel it s Hg fuel) by lia.
    + intros (R' & -> & HR')%IH. exists ((e :: cl) :: R').
      rewrite <- app_assoc. split; [done|]. by constructor.
Qed.

End Fuel.

Lemma concat_length_parts {A} (res : list (list A)) :
  Forall (fun c => c ≠ []) res -> (length res <= length (concat res))%nat.
Proof.
  induction 1 as [|c res Hc _ IH]; simpl; [done|].
  rewrite length_app. destruct c; [done|]. simpl. lia.
Qed.

(** X1.  No cluster that [cluster] returns is empty, and with distinct
    input indices there are at most as many clusters as indices. *)
Theorem cluster_nonempty fuel indices pointfn q max_points res :
  cluster fuel indices pointfn q max_points = Some res ->
  Forall (fun c => c ≠ []) res
  /\ (NoDup indices -> (length res <= length indices)%nat).
Proof.
  intros Hres.
  assert (Hne : Forall (fun c : list N => c ≠ []) res).
  { apply cluster_clusters in Hres as (R & HR & ->).
    apply clusters_loop_nonempty in HR as (R' & -> & HR'). simpl.
    apply Forall_fmap. eapply Forall_impl; [exact HR'|].
    intros cl Hcl. simpl. by destruct cl. }
  split; [done|]. intros Hnd.
  rewrite <- (Permutation_length (cluster_concat _ _ _ _ _ _ Hnd Hres)).
  by apply concat_length_parts.
Qed.

Lemma cluster_nonempty_witness :
  Forall (fun c : list N => c ≠ []) [[0; 1]; [2]]%N
  /\ (NoDup [0; 1; 2]%N -> (length [[0; 1]; [2]]%N <= length [0; 1; 2]%N)%nat).
Proof.
  apply (cluster_nonempty 4%nat [0; 1; 2]%N three_points (ByDistance 1) 2).
  by vm_compute.
Defined.

(** ** Chains of query answers *)

Lemma reached_mono qfn s cl cl' p e :
  cl ⊆ cl' -> reached qfn s cl p e -> reached qfn s cl' p e.
Proof.
  intros Hsub. induction 1 as [e He Hcl|e e' _ IH He Hcl].
  - apply reached_answer; auto.
  - eapply reached_step; eauto.
Qed.

Lemma reached_trans qfn s cl p q e :
  reached qfn s cl p q -> reached qfn s cl q e -> reached qfn s cl p e.
Proof.
  intros Hpq. induction 1 as [e He Hcl|e e' _ IH He Hcl].
  - by eapply reached_step.
  - by eapply reached_step.
Qed.

Section Chains.

Variable qfn : Index3D -> SpatElement -> Elems.
Variable max_points : N.
Hypothesis qfn_ok : index_query qfn.

(** What a round takes into the cluster are answers of the query. *)
Lemma group_step_taken s p cl e :
  e ∈ (group_step qfn max_points s p cl).1.1 -> e ∈ cl \/ e ∈ qfn s p.
Proof.
  unfold group_step; simpl.
  intros [He|He]%sort_cmp_elem%elem_of_app; [by left|right].
  assert (He' : e ∈ set_difference (sort_cmp (qfn s p)) cl).
  { eapply sublist_subseteq; [apply sublist_take|done]. }
  apply set_difference_elem in He'. by rewrite sort_cmp_elem in He'.
Qed.

Lemma group_step_new s p cl e :
  e ∈ (group_step qfn max_points s p cl).1.2 -> e ∈ qfn s p.
Proof.
  unfold group_step; simpl. intros He%set_difference_elem.
  by rewrite sort_cmp_elem in He.
Qed.

(** When [group] calls itself, all new points were taken. *)
Lemma group_step_all s p cl :
  Z.of_nat (length s) < 2 ^ 31 ->
  max_points = 0%N \/ vec_size cl <= Z.of_N max_points ->
  (group_step qfn max_points s p cl).2 = true ->
  (group_step qfn max_points s p cl).1.2 ⊆ (group_step qfn max_points s p cl).1.1.
Proof.
  intros Hlen Hcap. pose proof (newpts_length qfn max_points qfn_ok s p cl) as Hn.
  revert Hn. unfold group_step; simpl.
  set (newpts := set_difference (sort_cmp (qfn s p)) cl). intros Hn.
  rewrite fill_count_exact by (unfold vec_size in *; lia).
  intros [_ Hroom]%andb_true_iff. revert Hroom. unfold vec_size in *.
  rewrite sort_cmp_length, length_app, length_take.
  destruct (negb (max_points =? 0)%N
            && (Z.of_N max_points <? Z.of_nat (length newpts) + Z.of_nat (length cl))) eqn:Hc.
  - apply andb_true_iff in Hc as [Hc1 Hc2].
    apply negb_true_iff, N.eqb_neq in Hc1. apply Z.ltb_lt in Hc2.
    intros [?%N.eqb_eq|Hlt%Z.ltb_lt]%orb_true_iff; [done|lia].
  - intros _ e He. apply sort_cmp_elem, elem_of_app. right.
    by rewrite Nat2Z.id, firstn_all.
Qed.

Lemma group_step_cap_or s p cl :
  max_points = 0%N \/ vec_size cl <= Z.of_N max_points ->
  max_points = 0%N
  \/ vec_size (group_step qfn max_points s p cl).1.1 <= Z.of_N max_points.
Proof.
  intros [?|Hcap]; [by left|].
  destruct (decide (max_points = 0%N)); [by left|right]. by apply group_step_cap.
Qed.

Lemma group_cap_or fuel s pts cl cl' :
  group qfn max_points fuel s pts cl = Some cl' ->
  max_points = 0%N \/ vec_size cl <= Z.of_N max_points ->
  max_points = 0%N \/ vec_size cl' <= Z.of_N max_points.
Proof.
  intros Hg [?|Hcap]; [by left|].
  destruct (decide (max_points = 0%N)); [by left|right]. by eapply group_cap.
Qed.

(** Every member that [group] adds to a cluster is reached from one of the
    frontier points it was called on. *)
Lemma group_reached s :
  Z.of_nat (length s) < 2 ^ 31 ->
  forall fuel pts cl cl',
    group qfn max_points fuel s pts cl = Some cl' ->
    max_points = 0%N \/ vec_size cl <= Z.of_N max_points ->
    forall e, e ∈ cl' -> e ∈ cl \/ exists p, p ∈ pts /\ reached qfn s cl' p e.
Proof.
  intros Hlen. induction fuel as [|fuel IH]; [done|].
  induction pts as [|p pts IHp]; intros cl cl'.
  - rewrite group_nil. intros [= <-] _ e He. by left.
  - rewrite group_cons. intros Hg Hcap.
    pose proof (group_step_taken s p cl) as Htaken.
    pose proof (group_step_new s p cl) as Hnew.
    pose proof (group_step_all s p cl Hlen Hcap) as Hall.
    pose proof (group_step_cap_or s p cl Hcap) as Hcap1.
    destruct (group_step qfn max_points s p cl) as [[cl1 newpts] again]; simpl in *.
    destruct again.
    + destruct (group qfn max_points fuel s newpts cl1) as [cl2|] eqn:Hg2; [|done].
      pose proof (group_cap_or _ _ _ _ _ Hg2 Hcap1) as Hcap2.
      intros e He.
      assert (H12 : forall x, x ∈ cl1 -> x ∈ cl2) by (intros x; by eapply group_grows).
      assert (H2' : forall x, x ∈ cl2 -> x ∈ cl') by (intros x; by eapply group_grows).
      destruct (IHp cl2 cl' Hg Hcap2 e He) as [He2|(p' & Hp' & Hr)];
        [|right; exists p'; split; [by right|done]].
      destruct (IH newpts cl1 cl2 Hg2 Hcap1 e He2) as [He1|(q & Hq & Hr)].
      * destruct (Htaken e He1) as [?|Hans]; [by left|].
        right. exists p. split; [by left|]. by apply reached_answer.
      * right. exists p. split; [by left|].
        eapply reached_trans.
        -- apply reached_answer; [by apply Hnew|]. by apply H2', H12, Hall.
        -- eapply reached_mono; [|exact Hr]. intros x; apply H2'.
    + intros e He.
      destruct (IHp cl1 cl' Hg Hcap1 e He) as [He1|(p' & Hp' & Hr)];
        [|right; exists p'; split; [by right|done]].
      destruct (Htaken e He1) as [?|Hans]; [by left|].
      right. exists p. split; [by left|]. by apply reached_answer.
Qed.

(** The clusters of the loop, each with the round it comes from. *)
Lemma clusters_loop_rounds : forall fuel s acc R,
  clusters_loop qfn max_points fuel s acc = Some R ->
  exists R', R = acc ++ R' /\ rounds qfn max_points s R'.
Proof.
  induction fuel as [|fuel IH]; intros s acc R; [done|].
  rewrite clusters_loop_unfold. destruct s as [|it s].
  - intros [= <-]. exists []. rewrite app_nil_r. split; [done|constructor].
  - destruct (group _ _ _ _ _ _) as [cl|] eqn:Hg; [|done].
    intros (R' & -> & HR')%IH. exists (cl :: R'). rewrite <- app_assoc.
    split; [done|]. by econstructor.
Qed.

Lemma rounds_seeds s R :
  rounds qfn max_points s R ->
  Forall (fun cl => exists fuel it rest,
            it :: rest `sublist_of` s
            /\ group qfn max_points fuel (it :: rest) [it] [] = Some cl) R.
Proof.
  induction 1 as [|fuel it s cl R Hg _ IH]; constructor.
  - by exists fuel, it, s.
  - eapply Forall_impl; [exact IH|]. intros cl' (f & it' & rest & Hsub & Hg').
    exists f, it', rest. split; [|done]. etrans; [exact Hsub|apply remove_all_sublist].
Qed.

End Chains.

Lemma build_index_elem indices pointfn e :
  e ∈ build_index indices pointfn -> e = (pointfn e.2, e.2) /\ e.2 ∈ indices.
Proof.
  rewrite build_index_eq. by intros (i & -> & Hi)%list_elem_of_fmap.
Qed.

(** X2.  Under the predicate strategy, on fewer than [2^31] points, every
    cluster that [cluster] returns hangs together: there is an input index,
    the seed of its round, from which every member of the cluster is
    reached by a chain of members, each holding the predicate with the one
    before. *)
Theorem cluster_pred_linked fuel indices pointfn predicate max_points res :
  Z.of_nat (length indices) < 2 ^ 31 ->
  cluster fuel indices pointfn (ByPredicate predicate) max_points = Some res ->
  Forall (fun c => exists seed, seed ∈ indices
                    /\ forall i, i ∈ c -> linked predicate pointfn c seed i) res.
Proof.
  intros Hlen (R & HR & ->)%cluster_clusters. simpl in HR.
  apply clusters_loop_rounds in HR as (R' & -> & HR'). simpl.
  apply rounds_seeds in HR'. apply Forall_fmap. eapply Forall_impl; [exact HR'|].
  intros cl (f & it & rest & Hsub & Hg). simpl.
  assert (Hs : forall e, e ∈ it :: rest -> e = (pointfn e.2, e.2) /\ e.2 ∈ indices).
  { intros e He. apply (build_index_elem indices pointfn).
    eapply sublist_subseteq; [exact Hsub|done]. }
  assert (Hlen' : Z.of_nat (length (it :: rest)) < 2 ^ 31).
  { apply sublist_length in Hsub.
    rewrite <- (build_index_payloads indices pointfn), length_fmap in Hlen. lia. }
  destruct (Hs it) as [Hit Hseed]; [by left|].
  exists it.2. split; [done|].
  intros i (e & -> & He)%list_elem_of_fmap.
  destruct (group_reached _ max_points (predicate_query_ok predicate)
              (it :: rest) Hlen' f [it] [] cl Hg) with (e := e)
    as [Hnil|(p & Hp & Hr)]; [right; unfold vec_size; simpl; lia|done
                              |by apply elem_of_nil in Hnil|].
  apply list_elem_of_singleton in Hp as ->. clear He.
  induction Hr as [e Hans Hcl|e e' Hr IH Hans Hcl].
  - apply list_elem_of_filter in Hans as [Hpr Hin].
    apply linked_first; [by apply list_elem_of_fmap_2|].
    destruct (Hs e Hin) as [<- _]. rewrite <- Hit. by apply Is_true_eq_true.
  - apply list_elem_of_filter in Hans as [Hpr Hin].
    eapply linked_next; [by apply IH|by apply list_elem_of_fmap_2|].
    destruct (Hs e' Hin) as [<- _].
    assert (He : e ∈ it :: rest).
    { clear IH. destruct Hr as [e Hans _|e0 e _ Hans _];
        by apply list_elem_of_filter in Hans as [_ ?]. }
    destruct (Hs e He) as [<- _]. by apply Is_true_eq_true.
Qed.

Lemma cluster_pred_linked_witness :
  Forall (fun c => exists seed, seed ∈ [0; 1; 2]%N
                    /\ forall i, i ∈ c -> linked within_one three_points c seed i)
         [[0; 1]; [2]]%N.
Proof.
  apply (cluster_pred_linked 4%nat [0; 1; 2]%N three_points within_one 0).
  - by vm_compute.
  - by vm_compute.
Defined.

(** ** Without a cap, clusters are closed under the query *)

Lemma set_difference_split l1 l2 e :
  e ∈ l1 -> e ∈ set_difference l1 l2 \/ e.2 ∈ payloads l2.
Proof.
  revert l2. induction l1 as [|e1 l1 IH]; intros l2; [by intros ?%elem_of_nil|].
  induction l2 as [|e2 l2 IH2]; [by left|].
  rewrite set_difference_cons. unfold cmp. intros He.
  destruct (N.ltb_spec e1.2 e2.2) as [Hlt|Hge].
  - apply elem_of_cons in He as [->|He]; [left; by left|].
    destruct (IH (e2 :: l2) He) as [?|?]; [left; by right|by right].
  - destruct (N.ltb_spec e2.2 e1.2) as [Hlt|Hge'].
    + destruct (IH2 He) as [?|?]; [by left|right]. rewrite fmap_cons. by right.
    + apply elem_of_cons in He as [->|He].
      * right. rewrite fmap_cons. replace (e1.2) with (e2.2) by lia. by left.
      * destruct (IH l2 He) as [?|?]; [by left|right]. rewrite fmap_cons. by right.
Qed.

Lemma NoDup_payloads_eq (s : Elems) e e' :
  NoDup (payloads s) -> e ∈ s -> e' ∈ s -> e.2 = e'.2 -> e = e'.
Proof.
  induction s as [|a s IH]; [by intros _ ?%elem_of_nil|].
  rewrite fmap_cons. intros [Ha Hs]%NoDup_cons [->|He]%elem_of_cons [->|He']%elem_of_cons Heq.
  - done.
  - exfalso. apply Ha. rewrite Heq. by apply list_elem_of_fmap_2.
  - exfalso. apply Ha. rewrite <- Heq. by apply list_elem_of_fmap_2.
  - by apply IH.
Qed.

Section Closure.

Variable qfn : Index3D -> SpatElement -> Elems.
Hypothesis qfn_ok : index_query qfn.

Lemma group_step_from max_points s p cl e :
  e ∈ (group_step qfn max_points s p cl).1.1 ->
  e ∈ cl \/ e ∈ (group_step qfn max_points s p cl).1.2.
Proof.
  unfold group_step; simpl.
  intros [He|He]%sort_cmp_elem%elem_of_app; [by left|right].
  eapply sublist_subseteq; [apply sublist_take|done].
Qed.

(** Without a cap, a round takes every answer of the query into the
    cluster. *)
Lemma group_step_answers s p cl :
  NoDup (payloads s) -> Z.of_nat (length s) < 2 ^ 31 -> cl ⊆ s ->
  qfn s p ⊆ (group_step qfn 0 s p cl).1.1.
Proof.
  intros Hs Hlen Hsub e He.
  pose proof (newpts_length qfn 0 qfn_ok s p cl) as Hn. revert Hn.
  unfold group_step; simpl.
  set (newpts := set_difference (sort_cmp (qfn s p)) cl). intros Hn.
  apply sort_cmp_elem, elem_of_app.
  assert (He' : e ∈ sort_cmp (qfn s p)) by by rewrite sort_cmp_elem.
  destruct (set_difference_split _ cl _ He') as [Hnew|Hold].
  - right. rewrite fill_count_exact; [|unfold vec_size; lia|by left]. simpl.
    unfold vec_size. by rewrite Nat2Z.id, firstn_all.
  - left. apply list_elem_of_fmap in Hold as (e' & Heq & Hin).
    replace e with e'; [done|]. symmetry.
    apply (NoDup_payloads_eq s); [done| |by apply Hsub|done].
    eapply elem_of_submseteq; [exact He|apply qfn_ok].
Qed.

Lemma group_step_again s p cl :
  (group_step qfn 0 s p cl).2 = false -> (group_step qfn 0 s p cl).1.2 = [].
Proof.
  unfold group_step; simpl. rewrite andb_true_r.
  by intros ?%negb_false_iff%bool_decide_eq_true.
Qed.

(** Without a cap, [group] answers the query for every frontier point and
    for every member it adds, and all the answers are in the cluster. *)
Lemma group_closed s :
  NoDup (payloads s) -> Z.of_nat (length s) < 2 ^ 31 ->
  forall fuel pts cl cl',
    group qfn 0 fuel s pts cl = Some cl' -> cl ⊆ s ->
    (forall p, p ∈ pts -> qfn s p ⊆ cl')
    /\ (forall e, e ∈ cl' -> e ∈ cl \/ qfn s e ⊆ cl').
Proof.
  intros Hs Hlen. induction fuel as [|fuel IH]; [done|].
  induction pts as [|p pts IHp]; intros cl cl'.
  - rewrite group_nil. intros [= <-] _. split; [by intros p ?%elem_of_nil|by left].
  - rewrite group_cons. intros Hg Hsub.
    pose proof (group_step_answers s p cl Hs Hlen Hsub) as Hans.
    pose proof (group_step_from 0 s p cl) as Hfrom.
    pose proof (group_step_again s p cl) as Hagain.
    pose proof (group_step_stored qfn 0 qfn_ok s p cl Hsub) as Hsub1.
    destruct (group_step qfn 0 s p cl) as [[cl1 newpts] again]; simpl in *.
    destruct again.
    + destruct (group qfn 0 fuel s newpts cl1) as [cl2|] eqn:Hg2; [|done].
      assert (H12 : cl1 ⊆ cl2) by (intros x; by eapply group_grows).
      assert (H2' : cl2 ⊆ cl') by (intros x; by eapply group_grows).
      destruct (IH newpts cl1 cl2 Hg2 Hsub1) as [IH1 IH2].
      destruct (IHp cl2 cl' Hg) as [IHp1 IHp2];
        [by eapply (group_stored qfn 0 qfn_ok)|].
      split.
      * intros p0 [->|Hp0]%elem_of_cons; [|by apply IHp1].
        intros x Hx. by apply H2', H12, Hans.
      * intros e He. destruct (IHp2 e He) as [He2|?]; [|by right].
        destruct (IH2 e He2) as [He1|Hc]; [|right; intros x Hx; by apply H2', Hc].
        destruct (Hfrom e He1) as [?|Hn]; [by left|right].
        intros x Hx. by apply H2', (IH1 e Hn).
    + rewrite (Hagain eq_refl) in Hfrom.
      destruct (IHp cl1 cl' Hg Hsub1) as [IHp1 IHp2].
      assert (H1' : cl1 ⊆ cl') by (intros x; by eapply group_grows).
      split.
      * intros p0 [->|Hp0]%elem_of_cons; [|by apply IHp1].
        intros x Hx. by apply H1', Hans.
      * intros e He. destruct (IHp2 e He) as [He1|?]; [|by right].
        destruct (Hfrom e He1) as [?|Hn]; [by left|by apply elem_of_nil in Hn].
Qed.

Lemma rounds_storable max_points s R :
  rounds qfn max_points s R -> Forall storable s.
Proof.
  induction 1 as [|fuel it s cl R Hg _ IH]; [constructor|].
  destruct (decide (Forall storable (it :: s))) as [|Hn]; [done|].
  apply not_Forall_Exists in Hn; [|apply _].
  apply Exists_exists in Hn as (e & Hin & He).
  eapply Forall_forall in IH; [by apply He in IH|].
  by apply remove_all_keeps_unstorable.
Qed.

Lemma rounds_concat max_points s R :
  NoDup (payloads s) -> rounds qfn max_points s R -> concat R ≡ₚ s.
Proof.
  intros Hs HR. revert Hs.
  induction HR as [|fuel it s cl R Hg HR IH]; intros Hs; [done|].
  pose proof (rounds_storable _ _ _ (rounds_round _ _ _ _ _ _ _ Hg HR)) as Hst.
  apply group_well_kept in Hg as (_ & Hnd & Hsub); [|done|done|apply well_kept_nil].
  simpl. rewrite IH.
  - symmetry. by apply remove_all_found.
  - eapply sublist_NoDup; [exact Hs|]. apply fmap_sublist, remove_all_sublist.
Qed.

End Closure.

(** Without a cap, the predicate never holds from a member of a cluster to
    a member of a later one. *)
Lemma rounds_pred_closed predicate s R :
  rounds (predicate_queryfn predicate) 0 s R ->
  NoDup (payloads s) -> Z.of_nat (length s) < 2 ^ 31 ->
  forall k m ck cm e e',
    R !! k = Some ck -> R !! m = Some cm -> (k <= m)%nat ->
    e ∈ ck -> e' ∈ cm -> predicate e e' = true -> m = k.
Proof.
  induction 1 as [|fuel it s cl R Hg HR IH]; intros Hs Hlen k m ck cm e e'; [done|].
  pose proof (rounds_concat _ (predicate_query_ok predicate) _ _ _ Hs
                (rounds_round _ _ _ _ _ _ _ Hg HR)) as Hcat.
  destruct k as [|k].
  - intros [= <-] Hm _ He He' Hpr.
    assert (Hin : e' ∈ it :: s).
    { rewrite <- Hcat. apply elem_of_concat. exists cm.
      split; [done|]. by eapply list_elem_of_lookup_2. }
    destruct (group_closed _ (predicate_query_ok predicate) (it :: s) Hs Hlen
                fuel [it] [] cl Hg) as [_ Hcl]; [apply list_subseteq_nil|].
    destruct (Hcl e He) as [Hnil|Hc]; [by apply elem_of_nil in Hnil|].
    assert (He'cl : e' ∈ cl).
    { apply Hc, list_elem_of_filter. split; [by rewrite Hpr|done]. }
    eapply (NoDup_concat_unique (cl :: R) e' 0 m cl cm); try done.
    rewrite Hcat. by apply NoDup_fmap_1 in Hs.
  - destruct m as [|m]; [lia|]. simpl. intros Hk Hm Hle He He' Hpr.
    f_equal. eapply (IH _ _ k m ck cm e e'); try done; try lia.
Unshelve.
  + eapply sublist_NoDup; [exact Hs|]. apply fmap_sublist, remove_all_sublist.
  + pose proof (sublist_length _ _ (remove_all_sublist cl (it :: s))). lia.
Qed.

Lemma lookup_map {A B} (f : A -> B) (l : list A) (k : nat) :
  map f l !! k = f <$> (l !! k).
Proof. apply list_lookup_fmap. Qed.

(** X3.  Without a cap ([max_points = 0]), under the predicate strategy, on
    fewer than [2^31] points with distinct indices, the clusters are closed
    going forward: the predicate never holds from an index of one cluster
    to an index of a later cluster. *)
Theorem cluster_pred_closed fuel indices pointfn predicate res :
  NoDup indices -> Z.of_nat (length indices) < 2 ^ 31 ->
  cluster fuel indices pointfn (ByPredicate predicate) 0 = Some res ->
  forall k m ck cm i j,
    res !! k = Some ck -> res !! m = Some cm -> (k <= m)%nat ->
    i ∈ ck -> j ∈ cm ->
    predicate (pointfn i, i) (pointfn j, j) = true -> m = k.
Proof.
  intros Hnd Hlen (R & HR & ->)%cluster_clusters k m ck cm i j. simpl in HR.
  apply clusters_loop_rounds in HR as (R' & -> & HR'). simpl in *.
  unfold ClusteredPoints. rewrite !lookup_map.
  intros (clk & Hk & ->)%fmap_Some (clm & Hm & ->)%fmap_Some Hle
         (e & -> & He)%list_elem_of_fmap
         (e' & -> & He')%list_elem_of_fmap Hpr.
  pose proof (rounds_concat _ (predicate_query_ok predicate) 0
                (build_index indices pointfn) R') as Hcat.
  rewrite build_index_payloads in Hcat. specialize (Hcat Hnd HR').
  assert (Hin : forall k cl x, R' !! k = Some cl -> x ∈ cl -> x = (pointfn x.2, x.2)).
  { intros k0 cl x Hk0 Hx. apply (build_index_elem indices pointfn).
    rewrite <- Hcat. apply elem_of_concat. exists cl.
    split; [done|]. by eapply list_elem_of_lookup_2. }
  rewrite <- (Hin _ _ _ Hk He), <- (Hin _ _ _ Hm He') in Hpr.
  eapply (rounds_pred_closed predicate _ R' HR'); try done.
  - by rewrite build_index_payloads.
  - rewrite <- (build_index_payloads indices pointfn), length_fmap in Hlen. lia.
Qed.

Lemma cluster_pred_closed_witness : 0%nat = 0%nat.
Proof.
  refine (cluster_pred_closed 4%nat [0; 1; 2]%N three_points within_one
            [[0; 1]; [2]]%N _ _ _ 0%nat 0%nat [0; 1]%N [0; 1]%N 0%N 1%N _ _ _ _ _ _).
  - by apply (bool_decide_unpack _).
  - by vm_compute.
  - by vm_compute.
  - reflexivity.
  - reflexivity.
  - lia.
  - by apply (bool_decide_unpack _).
  - by apply (bool_decide_unpack _).
  - by vm_compute.
Defined.

(** ** Clusters of an equivalence *)

Lemma rounds_reached qfn max_points s R :
  index_query qfn -> Z.of_nat (length s) < 2 ^ 31 ->
  rounds qfn max_points s R ->
  Forall (fun cl => exists it rest,
            it :: rest `sublist_of` s
            /\ forall e, e ∈ cl -> reached qfn (it :: rest) cl it e) R.
Proof.
  intros Hq Hlen HR. apply rounds_seeds in HR.
  eapply Forall_impl; [exact HR|]. intros cl (f & it & rest & Hsub & Hg).
  exists it, rest. split; [done|]. intros e He.
  assert (Hlen' : Z.of_nat (length (it :: rest)) < 2 ^ 31).
  { apply sublist_length in Hsub. lia. }
  destruct (group_reached qfn max_points Hq (it :: rest) Hlen' f [it] [] cl Hg)
    with (e := e) as [Hnil|(p & Hp & Hr)];
    [right; unfold vec_size; simpl; lia|done|by apply elem_of_nil in Hnil|].
  by apply list_elem_of_singleton in Hp as ->.
Qed.

(** Along a chain of answers of a transitive predicate, the predicate
    holds from the start to the end. *)
Lemma reached_pred predicate (sx : Index3D) s cl it e :
  (forall a b c, a ∈ sx -> b ∈ sx -> c ∈ sx ->
     predicate a b = true -> predicate b c = true -> predicate a c = true) ->
  s ⊆ sx -> it ∈ sx ->
  reached (predicate_queryfn predicate) s cl it e ->
  predicate it e = true /\ e ∈ sx.
Proof.
  intros Htrans Hsub Hit.
  induction 1 as [e Hans _|e e' _ [IH HeS] Hans _];
    apply list_elem_of_filter in Hans as [Hpr Hin]; apply Is_true_eq_true in Hpr.
  - split; [done|by apply Hsub].
  - split; [|by apply Hsub]. eapply (Htrans it e e'); auto.
Qed.

(** X4.  For a predicate that is symmetric and transitive on the input
    points, without a cap, on fewer than [2^31] points with distinct
    indices, the clusters that [cluster] returns are the classes of the
    predicate: the predicate holds between two clustered indices exactly
    when they lie in the same cluster. *)
Theorem cluster_pred_classes fuel indices pointfn predicate res :
  NoDup indices -> Z.of_nat (length indices) < 2 ^ 31 ->
  (forall i j, i ∈ indices -> j ∈ indices ->
     predicate (pointfn i, i) (pointfn j, j) = true ->
     predicate (pointfn j, j) (pointfn i, i) = true) ->
  (forall i j k, i ∈ indices -> j ∈ indices -> k ∈ indices ->
     predicate (pointfn i, i) (pointfn j, j) = true ->
     predicate (pointfn j, j) (pointfn k, k) = true ->
     predicate (pointfn i, i) (pointfn k, k) = true) ->
  cluster fuel indices pointfn (ByPredicate predicate) 0 = Some res ->
  forall k m ck cm i j,
    res !! k = Some ck -> res !! m = Some cm -> i ∈ ck -> j ∈ cm ->
    (predicate (pointfn i, i) (pointfn j, j) = true <-> m = k).
Proof.
  intros Hnd Hlen Hsym Htrans (R & HR & ->)%cluster_clusters k m ck cm i j.
  simpl in HR. apply clusters_loop_rounds in HR as (R' & -> & HR'). simpl in *.
  unfold ClusteredPoints. rewrite !lookup_map.
  intros (clk & Hk & ->)%fmap_Some (clm & Hm & ->)%fmap_Some
         (e & -> & He)%list_elem_of_fmap (e' & -> & He')%list_elem_of_fmap.
  set (sx := build_index indices pointfn) in *.
  assert (Hsx : forall x, x ∈ sx -> x = (pointfn x.2, x.2) /\ x.2 ∈ indices)
    by apply build_index_elem.
  assert (HsymX : forall a b, a ∈ sx -> b ∈ sx ->
                    predicate a b = true -> predicate b a = true).
  { intros a b [Ha Hai]%Hsx [Hb Hbi]%Hsx. rewrite Ha, Hb. by apply Hsym. }
  assert (HtransS : forall a b c, a ∈ sx -> b ∈ sx -> c ∈ sx ->
                      predicate a b = true -> predicate b c = true ->
                      predicate a c = true).
  { intros a b c [Ha Hai]%Hsx [Hb Hbi]%Hsx [Hc Hci]%Hsx. rewrite Ha, Hb, Hc.
    by apply Htrans. }
  assert (Hsxnd : NoDup (payloads sx)) by (unfold sx; by rewrite build_index_payloads).
  assert (Hsxlen : Z.of_nat (length sx) < 2 ^ 31).
  { rewrite <- (build_index_payloads indices pointfn), length_fmap in Hlen.
    unfold sx. lia. }
  pose proof (rounds_concat _ (predicate_query_ok predicate) 0 sx R' Hsxnd HR') as Hcat.
  assert (Hin : forall k cl x, R' !! k = Some cl -> x ∈ cl -> x ∈ sx).
  { intros k0 cl x Hk0 Hx. rewrite <- Hcat. apply elem_of_concat. exists cl.
    split; [done|]. by eapply list_elem_of_lookup_2. }
  pose proof (Hin _ _ _ Hk He) as HeS. pose proof (Hin _ _ _ Hm He') as He'sx.
  destruct (Hsx e HeS) as [<- _]. destruct (Hsx e' He'sx) as [<- _].
  split.
  - intros Hpr. destruct (le_ge_dec k m) as [Hle|Hge].
    + by eapply (rounds_pred_closed predicate sx R' HR' Hsxnd Hsxlen k m clk clm e e').
    + symmetry.
      eapply (rounds_pred_closed predicate sx R' HR' Hsxnd Hsxlen m k clm clk e' e);
        try done. by apply HsymX.
  - intros ->. rewrite Hk in Hm. injection Hm as <-.
    pose proof (rounds_reached _ 0 sx R' (predicate_query_ok predicate) Hsxlen HR') as Hr.
    eapply Forall_forall in Hr; [|by eapply list_elem_of_lookup_2].
    destruct Hr as (it & rest & Hsub & Hr).
    assert (HitS : it ∈ sx) by (eapply sublist_subseteq; [exact Hsub|by left]).
    assert (HsubS : it :: rest ⊆ sx) by by apply sublist_subseteq.
    destruct (reached_pred predicate sx _ _ _ _ HtransS HsubS HitS (Hr e He)) as [H1 _].
    destruct (reached_pred predicate sx _ _ _ _ HtransS HsubS HitS (Hr e' He')) as [H2 _].
    apply (HtransS e it e'); auto.
Qed.

Lemma cluster_pred_classes_witness :
  within_one (three_points 0, 0%N) (three_points 2, 2%N) = true <-> 1%nat = 0%nat.
Proof.
  refine (cluster_pred_classes 4%nat [0; 1; 2]%N three_points within_one
            [[0; 1]; [2]]%N _ _ _ _ _ 0%nat 1%nat [0; 1]%N [2]%N 0%N 2%N _ _ _ _).
  - by apply (bool_decide_unpack _).
  - by vm_compute.
  - intros i j Hi Hj.
    repeat (apply elem_of_cons in Hi as [->|Hi]);
      repeat (apply elem_of_cons in Hj as [->|Hj]);
      try (by apply elem_of_nil in Hi); try (by apply elem_of_nil in Hj);
      by vm_compute.
  - intros i j k Hi Hj Hk.
    repeat (apply elem_of_cons in Hi as [->|Hi]);
      repeat (apply elem_of_cons in Hj as [->|Hj]);
      repeat (apply elem_of_cons in Hk as [->|Hk]);
      try (by apply elem_of_nil in Hi); try (by apply elem_of_nil in Hj);
      try (by apply elem_of_nil in Hk); by vm_compute.
  - by vm_compute.
  - reflexivity.
  - reflexivity.
  - by apply (bool_decide_unpack _).
  - by apply (bool_decide_unpack _).
Defined.

(** ** A cap that cannot bind *)

Section Slack.

(** Two runs of the engine: the query functions agree on every index of at
    most [n] elements, the first cap is above [n], and the second is
    above [n] or none. *)
Variables qfn qfn' : Index3D -> SpatElement -> Elems.
Variables max_points max_points' : N.
Variable n : Z.
Hypothesis qfn_ok : index_query qfn.
Hypothesis qfn_agree :
  forall s p, Z.of_nat (length s) <= n -> qfn s p = qfn' s p.
Hypothesis above : n < Z.of_N max_points.
Hypothesis above' : max_points' = 0%N \/ n < Z.of_N max_points'.

(** The new points of a round and the cluster share no element: together
    they are no more than the index holds. *)
Lemma newpts_room s p cl :
  NoDup (payloads s) -> well_kept s cl ->
  (length (set_difference (sort_cmp (qfn s p)) cl) + length cl <= length s)%nat.
Proof.
  intros Hs (Hsort & Hnd & Hsub).
  set (tmp := sort_cmp (qfn s p)). set (newpts := set_difference tmp cl).
  assert (Htmp : NoDup (payloads tmp)).
  { unfold tmp. rewrite sort_cmp_payloads.
    eapply submseteq_NoDup; [|exact Hs]. by apply fmap_submseteq. }
  assert (Hnew : NoDup (payloads (newpts ++ cl))).
  { rewrite fmap_app. apply NoDup_app. split; [|split; [|done]].
    - eapply sublist_NoDup; [exact Htmp|]. apply fmap_sublist, set_difference_sublist.
    - intros i (e & -> & He)%list_elem_of_fmap.
      eapply set_difference_fresh; [apply sort_cmp_sorted|exact Htmp|exact Hsort|exact He]. }
  assert (Hin : payloads (newpts ++ cl) ⊆+ payloads s).
  { apply NoDup_submseteq; [done|].
    intros i (e & -> & He)%list_elem_of_fmap. apply list_elem_of_fmap_2.
    apply elem_of_app in He as [He|He]; [|by apply Hsub].
    eapply elem_of_submseteq; [|apply qfn_ok].
    apply set_difference_elem in He. unfold tmp in He. by rewrite sort_cmp_elem in He. }
  apply submseteq_length in Hin. by rewrite !length_fmap, length_app in Hin.
Qed.

Lemma group_step_slack s p cl :
  NoDup (payloads s) -> Z.of_nat (length s) <= n -> well_kept s cl ->
  group_step qfn max_points s p cl = group_step qfn' max_points' s p cl.
Proof.
  intros Hs Hlen Hwk. pose proof (newpts_room s p cl Hs Hwk) as Hroom.
  unfold group_step. rewrite <- (qfn_agree s p Hlen).
  set (newpts := set_difference (sort_cmp (qfn s p)) cl) in *.
  assert (Hc : forall m, m = 0%N \/ n < Z.of_N m ->
                 fill_count m newpts cl = to_int (vec_size newpts)).
  { intros m Hm. unfold fill_count, vec_size.
    destruct (negb (m =? 0)%N && _) eqn:Hc; [|done].
    apply andb_true_iff in Hc as [Hc1 Hc2].
    apply negb_true_iff, N.eqb_neq in Hc1. apply Z.ltb_lt in Hc2. lia. }
  rewrite (Hc max_points), (Hc max_points') by auto.
  set (cl' := sort_cmp (cl ++ take (Z.to_nat (to_int (vec_size newpts))) newpts)).
  assert (Hl : vec_size cl' <= n).
  { unfold cl', vec_size. rewrite sort_cmp_length, length_app, length_take. lia. }
  assert (Hr : forall m, m = 0%N \/ n < Z.of_N m ->
                 ((m =? 0)%N || (vec_size cl' <? Z.of_N m)) = true).
  { intros m [->|Hm]; [done|]. apply orb_true_iff. right. apply Z.ltb_lt. lia. }
  by rewrite (Hr max_points), (Hr max_points') by auto.
Qed.

Lemma group_slack s :
  NoDup (payloads s) -> Z.of_nat (length s) <= n ->
  forall fuel pts cl,
    well_kept s cl ->
    group qfn max_points fuel s pts cl = group qfn' max_points' fuel s pts cl.
Proof.
  intros Hs Hlen. induction fuel as [|fuel IH]; [done|].
  induction pts as [|p pts IHp]; intros cl Hwk; [done|].
  rewrite !group_cons, <- (group_step_slack s p cl Hs Hlen Hwk).
  pose proof (group_step_well_kept qfn max_points s p cl qfn_ok Hs Hwk) as Hwk1.
  destruct (group_step qfn max_points s p cl) as [[cl1 newpts] again]; simpl in *.
  destruct again; [|by apply IHp].
  rewrite <- (IH newpts cl1 Hwk1).
  destruct (group qfn max_points fuel s newpts cl1) as [cl2|] eqn:Hg; [|done].
  apply IHp. by eapply group_well_kept.
Qed.

Lemma clusters_loop_slack : forall fuel s acc,
  NoDup (payloads s) -> Z.of_nat (length s) <= n ->
  clusters_loop qfn max_points fuel s acc
  = clusters_loop qfn' max_points' fuel s acc.
Proof.
  induction fuel as [|fuel IH]; intros s acc Hs Hlen; [done|].
  rewrite !clusters_loop_unfold. destruct s as [|it s]; [done|].
  rewrite <- (group_slack (it :: s) Hs Hlen (S fuel) [it] [] (well_kept_nil _)).
  destruct (group qfn max_points (S fuel) (it :: s) [it] []) as [cl|]; [|done].
  apply IH.
  - eapply sublist_NoDup; [exact Hs|]. apply fmap_sublist, remove_all_sublist.
  - pose proof (sublist_length _ _ (remove_all_sublist cl (it :: s))). lia.
Qed.

End Slack.

Lemma nearest_all s q k :
  Z.of_nat (length s) <= Z.of_N k -> Index.nearest s q k = Index.by_distance q s.
Proof.
  intros Hk. unfold Index.nearest. apply take_ge.
  rewrite (Permutation_length (by_distance_perm q s)). lia.
Qed.

(** Above the number of points the run of the engine does not depend on
    the cap. *)
Lemma cluster_slack fuel indices pointfn max_points :
  NoDup indices -> Z.of_nat (length indices) < Z.of_N max_points ->
  (forall q max_points',
      Z.of_nat (length indices) < Z.of_N max_points' ->
      cluster fuel indices pointfn q max_points
      = cluster fuel indices pointfn q max_points')
  /\ (forall predicate,
        cluster fuel indices pointfn (ByPredicate predicate) max_points
        = cluster fuel indices pointfn (ByPredicate predicate) 0).
Proof.
  intros Hnd Hmp.
  assert (Hs : NoDup (payloads (build_index indices pointfn)))
    by by rewrite build_index_payloads.
  assert (Hlen : Z.of_nat (length (build_index indices pointfn))
                 <= Z.of_nat (length indices)).
  { rewrite <- (build_index_payloads indices pointfn) at 2. by rewrite length_fmap. }
  split.
  - intros q max_points' Hmp'. rewrite !cluster_eq. unfold cluster_index.
    rewrite (clusters_loop_slack (query_fn q max_points) (query_fn q max_points')
               max_points max_points' (Z.of_nat (length indices)));
      [done|apply query_fn_ok| |done|by right|done|done].
    intros s p Hn. destruct q as [dist|predicate]; [|done]. simpl.
    unfold distance_queryfn. rewrite !nearest_all by lia. done.
  - intros predicate. rewrite !cluster_eq. unfold cluster_index. simpl.
    rewrite (clusters_loop_slack (predicate_queryfn predicate)
               (predicate_queryfn predicate)
               max_points 0 (Z.of_nat (length indices)));
      [done|apply predicate_query_ok|done|done|by left|done|done].
Qed.

Lemma reserve_nothing heap : Alloc.reserve heap 0 = true.
Proof. unfold Alloc.reserve. apply N.leb_le. lia. Qed.

(** X5.  A cap above the number of points binds through its reservation
    only.  With distinct indices, [cluster] ends in the same way for any
    two caps above the number of indices whose reservations the allocator
    grants, under either strategy, and under the predicate strategy that
    is also how it ends without a cap; with a cap whose reservation is
    refused it throws.  With room for [16] elements, three points are
    clustered alike under the caps [4] and [7], and the cap [4294967295]
    ends in the exception. *)
Theorem cluster_slack_cap :
  (forall heap fuel indices pointfn max_points,
      NoDup indices -> Z.of_nat (length indices) < Z.of_N max_points ->
      Alloc.reserve heap max_points = true ->
      (forall q max_points',
          Z.of_nat (length indices) < Z.of_N max_points' ->
          Alloc.reserve heap max_points' = true ->
          Alloc.cluster heap fuel indices pointfn q max_points
          = Alloc.cluster heap fuel indices pointfn q max_points')
      /\ (forall predicate,
            Alloc.cluster heap fuel indices pointfn (ByPredicate predicate)
                          max_points
            = Alloc.cluster heap fuel indices pointfn (ByPredicate predicate) 0)
      /\ (forall q max_points',
            Alloc.reserve heap max_points' = false ->
            indices ≠ [] -> fuel ≠ 0%nat ->
            Alloc.cluster heap fuel indices pointfn q max_points' = Throws))
  /\ Alloc.cluster 16 4 [0; 1; 2]%N three_points (ByDistance 1) 4
     = Returns [[0; 1]; [2]]%N
  /\ Alloc.cluster 16 4 [0; 1; 2]%N three_points (ByDistance 1) 7
     = Returns [[0; 1]; [2]]%N
  /\ Alloc.cluster 16 4 [0; 1; 2]%N three_points (ByDistance 1) 4294967295
     = Throws.
Proof.
  split; [|repeat split; by vm_compute].
  intros heap fuel indices pointfn max_points Hnd Hmp Hres.
  destruct (cluster_slack fuel indices pointfn max_points Hnd Hmp) as [Hcaps Hnone].
  split; [|split].
  - intros q max_points' Hmp' Hres'.
    rewrite !alloc_cluster_granted by done. f_equal. by apply Hcaps.
  - intros predicate.
    rewrite !alloc_cluster_granted by (done || apply reserve_nothing).
    f_equal. apply Hnone.
  - intros q max_points' Hres' Hne Hfuel. destruct fuel as [|fuel]; [done|].
    by apply alloc_cluster_refused.
Qed.

Lemma cluster_slack_cap_witness :
  Alloc.cluster 16 4 [0; 1; 2]%N three_points (ByDistance 1) 4
  = Alloc.cluster 16 4 [0; 1; 2]%N three_points (ByDistance 1) 7.
Proof.
  refine (proj1 (proj1 cluster_slack_cap 16%N 4%nat [0; 1; 2]%N three_points 4%N
                   _ _ _) (ByDistance 1) 7%N _ _).
  - by apply (bool_decide_unpack _).
  - by vm_compute.
  - reflexivity.
  - by vm_compute.
  - reflexivity.
Defined.

(** ** What the cap cuts *)

Lemma StronglySorted_sublist {A} (R : relation A) (k l : list A) :
  k `sublist_of` l -> StronglySorted R l -> StronglySorted R k.
Proof.
  induction 1 as [|x k l Hsub IH|x k l Hsub IH]; [done| |].
  - intros [Hall Hl]%StronglySorted_cons. apply StronglySorted_cons.
    split; [|by apply IH]. apply Forall_forall. intros y Hy.
    eapply Forall_forall in Hall; [exact Hall|]. by eapply sublist_subseteq.
  - intros [_ Hl]%StronglySorted_cons. by apply IH.
Qed.

(** X6.  When the cap cuts the new points of a round, the points taken are
    those with the smallest payload indices, whatever their distance: over
    an index with distinct payloads and for a sorted cluster, every new
    point that the round takes into the cluster has a smaller payload than
    every new point that it leaves out. *)
Theorem group_step_takes_smallest qfn max_points s p cl :
  index_query qfn -> NoDup (payloads s) -> StronglySorted payload_le cl ->
  forall e e',
    e ∈ (group_step qfn max_points s p cl).1.2 ->
    e' ∈ (group_step qfn max_points s p cl).1.2 ->
    e ∈ (group_step qfn max_points s p cl).1.1 ->
    e' ∉ (group_step qfn max_points s p cl).1.1 ->
    (e.2 < e'.2)%N.
Proof.
  intros Hq Hs Hcl e e'. unfold group_step; simpl.
  set (tmp := sort_cmp (qfn s p)). set (newpts := set_difference tmp cl).
  set (c := Z.to_nat (fill_count max_points newpts cl)).
  assert (Htmp : NoDup (payloads tmp)).
  { unfold tmp. rewrite sort_cmp_payloads.
    eapply submseteq_NoDup; [|exact Hs]. by apply fmap_submseteq. }
  assert (Hsorted : StronglySorted payload_le newpts).
  { eapply StronglySorted_sublist; [apply set_difference_sublist|apply sort_cmp_sorted]. }
  assert (Hnd : NoDup (payloads newpts)).
  { eapply sublist_NoDup; [exact Htmp|]. apply fmap_sublist, set_difference_sublist. }
  intros He He' Hin Hout.
  assert (Htake : e ∈ take c newpts).
  { apply sort_cmp_elem, elem_of_app in Hin as [Hin|Hin]; [|done].
    exfalso. eapply (set_difference_fresh tmp cl e); try done; [apply sort_cmp_sorted|].
    by apply list_elem_of_fmap_2. }
  assert (Hdrop : e' ∈ drop c newpts).
  { rewrite <- (take_drop c newpts) in He'.
    apply elem_of_app in He' as [He'|He']; [|done].
    exfalso. apply Hout, sort_cmp_elem, elem_of_app. by right. }
  rewrite <- (take_drop c newpts) in Hsorted, Hnd.
  pose proof (StronglySorted_app_1_elem_of _ _ _ _ _ Hsorted Htake Hdrop) as Hle.
  rewrite fmap_app in Hnd. apply NoDup_app in Hnd as (_ & Hdis & _).
  assert (e.2 ≠ e'.2).
  { intros Heq. apply (Hdis e.2); [by apply list_elem_of_fmap_2|].
    rewrite Heq. by apply list_elem_of_fmap_2. }
  unfold payload_le in Hle. lia.
Qed.

Lemma group_step_takes_smallest_witness : (0 < 1)%N.
Proof.
  refine (group_step_takes_smallest (predicate_queryfn (fun _ _ => true)) 1
            (build_index [0; 1; 2]%N three_points) (three_points 0, 0%N) []
            _ _ _ (three_points 0, 0%N) (three_points 1, 1%N) _ _ _ _).
  - apply predicate_query_ok.
  - by apply (bool_decide_unpack _).
  - constructor.
  - vm_compute. by left.
  - vm_compute. right. by left.
  - vm_compute. by left.
  - vm_compute. intros H. apply list_elem_of_singleton in H. discriminate H.
Defined.

(** ** What the distance query returns *)

Lemma erase_far_keeps p dist tmp e :
  e ∈ tmp -> (dist <? distance p e.1)%float = false -> e ∈ erase_far p dist tmp.
Proof.
  intros He Hnear. revert He.
  cut ((e ∈ tmp -> e ∈ erase_far p dist tmp)
       /\ forall e0, e ∈ e0 :: tmp -> e ∈ erase_far p dist (e0 :: tmp)); [by intros []|].
  induction tmp as [|e' rest [IH1 IH2]]; (split; [|intros e0]); simpl.
  - done.
  - intros ->%list_elem_of_singleton. rewrite Hnear. by left.
  - apply IH2.
  - destruct (dist <? distance p e0.1)%float eqn:Hfar.
    + intros [->|[->|He]%elem_of_cons]%elem_of_cons.
      * by rewrite Hnear in Hfar.
      * by left.
      * right. by apply IH1.
    + intros [->|He]%elem_of_cons; [by left|]. right. by apply IH2.
Qed.

(** X7.  [distance_queryfn] returns at most [max_points] elements, all of
    them stored in the index, and among them every one of the
    [max_points] nearest elements that is not farther than [dist] from
    the query point: the erase loop never drops a near neighbour. *)
Theorem distance_queryfn_keeps s p dist max_points :
  (length (distance_queryfn s p dist max_points) <= N.to_nat max_points)%nat
  /\ distance_queryfn s p dist max_points ⊆+ s
  /\ forall e,
       e ∈ Index.nearest s p.1 max_points ->
       (dist <? distance p.1 e.1)%float = false ->
       e ∈ distance_queryfn s p dist max_points.
Proof.
  split; [|split].
  - unfold distance_queryfn.
    etrans; [apply sublist_length, erase_far_sublist|].
    unfold Index.nearest. rewrite length_take. lia.
  - apply distance_query_ok.
  - intros e He Hnear. by apply erase_far_keeps.
Qed.

Lemma distance_queryfn_keeps_witness :
  (three_points 1, 1%N)
  ∈ distance_queryfn (build_index [0; 1; 2]%N three_points) (three_points 0, 0%N) 1 2.
Proof.
  refine (proj2 (proj2 (distance_queryfn_keeps (build_index [0; 1; 2]%N three_points)
                          (three_points 0, 0%N) 1 2)) (three_points 1, 1%N) _ _).
  - vm_compute. right. by left.
  - by vm_compute.
Defined.

(** ** The entry point over a point set *)

Lemma insert_rows_eq rows : forall i acc,
  insert_rows rows i acc
  = acc ++ imap (fun k row => (row, to_unsigned (i + Z.of_nat k))) rows.
Proof.
  induction rows as [|row rows IH]; intros i acc; simpl; [by rewrite app_nil_r|].
  rewrite IH. unfold Index.insert. rewrite <- app_assoc. simpl.
  rewrite Z.add_0_r. do 2 f_equal. apply imap_ext. intros k x _. simpl.
  f_equal. f_equal. lia.
Qed.

Lemma to_unsigned_small k :
  Z.of_nat k < 2 ^ 32 -> to_unsigned (Z.of_nat k) = N.of_nat k.
Proof. intros Hk. unfold to_unsigned. rewrite Z.mod_small; lia. Qed.

Lemma insert_rows_index pts :
  Z.of_nat (length pts) <= 2 ^ 32 ->
  insert_rows pts 0 [] = build_index (row_numbers pts) (row_of pts).
Proof.
  intros Hlen. rewrite insert_rows_eq, build_index_eq. simpl.
  unfold row_numbers. rewrite <- list_fmap_compose.
  rewrite <- (imap_seq_0 pts ((fun idx => (row_of pts idx, idx)) ∘ N.of_nat)).
  apply imap_ext. intros k row Hk. simpl.
  pose proof (lookup_lt_Some _ _ _ Hk) as Hlt.
  rewrite Z.add_0_l, to_unsigned_small by lia. unfold row_of.
  by rewrite Nat2N.id, Hk.
Qed.

Lemma row_numbers_NoDup pts : NoDup (row_numbers pts).
Proof.
  unfold row_numbers. apply NoDup_fmap_2; [|apply NoDup_seq].
  intros a b. apply Nat2N.inj.
Qed.

(** X8.  On a point set of at most [2^32] rows, the entry point over a
    point set is the distance strategy of [cluster] on the row numbers,
    with the rows as points; what it returns holds every row number
    once. *)
Theorem cluster_pts_rows fuel pts dist max_points :
  Z.of_nat (length pts) <= 2 ^ 32 ->
  cluster_pts fuel pts dist max_points
  = cluster fuel (row_numbers pts) (row_of pts) (ByDistance dist) max_points
  /\ forall res,
       cluster_pts fuel pts dist max_points = Some res ->
       concat res ≡ₚ row_numbers pts.
Proof.
  intros Hlen.
  assert (Heq : cluster_pts fuel pts dist max_points
                = cluster fuel (row_numbers pts) (row_of pts) (ByDistance dist)
                          max_points).
  { unfold cluster_pts. rewrite insert_rows_index by done. by rewrite cluster_eq. }
  split; [done|]. intros res Hres. rewrite Heq in Hres.
  eapply cluster_concat; [apply row_numbers_NoDup|exact Hres].
Qed.

Lemma cluster_pts_rows_witness :
  cluster_pts 4 [Vec.mk 0 0 0; Vec.mk 0.5 0 0; Vec.mk 10 0 0] 1 2
  = cluster 4 [0; 1; 2]%N
            (row_of [Vec.mk 0 0 0; Vec.mk 0.5 0 0; Vec.mk 10 0 0]) (ByDistance 1) 2.
Proof.
  refine (proj1 (cluster_pts_rows 4%nat
                   [Vec.mk 0 0 0; Vec.mk 0.5 0 0; Vec.mk 10 0 0] 1 2 _)).
  by vm_compute.
Defined.

(** ** A flat neighbourhood *)

Lemma unique_from_same a l :
  Forall (fun b => same_normal a b = true) l -> unique_from a l = [].
Proof.
  induction 1 as [|b l Hb _ IH]; simpl; [done|]. by rewrite Hb.
Qed.

(** Normals that [same_normal] takes for one, each with each, leave one
    survivor. *)
Lemma unique_single l :
  l ≠ [] ->
  (forall a b, a ∈ l -> b ∈ l -> same_normal a b = true) ->
  exists n, n ∈ l /\ unique (sort_by_sum l) = [n].
Proof.
  intros Hne Hsame. pose proof (sort_by_sum_perm l) as Hp.
  destruct (sort_by_sum l) as [|n rest].
  - symmetry in Hp. apply Permutation_nil_r in Hp. done.
  - exists n. split; [rewrite <- Hp; by left|]. simpl. f_equal.
    apply unique_from_same, Forall_forall. intros b Hb.
    apply Hsame; rewrite <- Hp; [by left|by right].
Qed.

(** The row that [proc] writes for a point on a vertex or an edge. *)
Lemma proc_resolved pfn mesh eps thr eidx faceid c tri :
  thr tt = false ->
  squared_distance mesh (pfn eidx) = (faceid, c) ->
  0 <= faceid ->
  F mesh !! Z.to_nat faceid = Some tri ->
  0 <= iX tri -> 0 <= iY tri -> 0 <= iZ tri ->
  let cls := classify c (rowV mesh (iX tri)) (rowV mesh (iY tri))
                      (rowV mesh (iZ tri)) tri eps in
  cls ≠ FaceInterior ->
  tri ∈ faces_around mesh cls
  /\ proc pfn mesh eps thr eidx = Done (Some (resolved_normal mesh cls)).
Proof.
  intros Hthr Hsq Hface Htri HX HY HZ cls Hcls.
  assert (Hown : tri ∈ faces_around mesh cls).
  { apply faces_around_owner; [by eapply list_elem_of_lookup_2|].
    pose proof (classify_members c (rowV mesh (iX tri)) (rowV mesh (iY tri))
                  (rowV mesh (iZ tri)) tri eps) as Hm.
    fold cls in Hm. by destruct cls. }
  split; [done|]. unfold proc. rewrite Hthr, Hsq.
  destruct (faceid <? 0) eqn:Hneg; [apply Z.ltb_lt in Hneg; lia|].
  assert (Hrow : rowF mesh faceid = tri) by (unfold rowF; by rewrite Htri).
  rewrite Hrow, neighbours_faces by done.
  rewrite degeneracy_classify by done. fold cls.
  unfold resolved_normal, mean.
  destruct (faces_around mesh cls) as [|ni neigh] eqn:Hfa;
    [by apply elem_of_nil in Hown|].
  by rewrite unique_collapse.
Qed.

(** X11.  In a flat neighbourhood no mean is taken.  For a query point
    whose closest point is classified on a vertex or an edge, when the unit
    normals of the faces around it agree with each other to within [0.001]
    in every coordinate, the row that [normals] writes is built from the
    normal of one of these faces alone. *)
Theorem normals_flat pfn mesh eps thr pt_indices ret ridx eidx faceid c tri :
  normals pfn mesh eps thr pt_indices = Done ret ->
  pt_indices !! ridx = Some eidx ->
  squared_distance mesh (pfn eidx) = (faceid, c) ->
  0 <= faceid ->
  F mesh !! Z.to_nat faceid = Some tri ->
  Forall (fun v => 0 <= v < Z.of_nat (length (V mesh))) (vertices tri) ->
  let cls := classify c (rowV mesh (iX tri)) (rowV mesh (iY tri))
                      (rowV mesh (iZ tri)) tri eps in
  cls ≠ FaceInterior ->
  (forall f g, f ∈ faces_around mesh cls -> g ∈ faces_around mesh cls ->
     same_normal (face_normal mesh f) (face_normal mesh g) = true) ->
  exists f, f ∈ faces_around mesh cls
    /\ ret !! ridx = Some (Some (mean [face_normal mesh f])).
Proof.
  intros Hn Hidx Hsq Hface Htri Hv cls Hcls Hflat.
  assert (HF : F mesh ≠ []) by (intros H; by rewrite H in Htri).
  assert (HV : V mesh ≠ []).
  { intros H. rewrite H in Hv. apply Forall_cons in Hv as [? _]. simpl in *. lia. }
  destruct (normals_lookup _ _ _ _ _ _ _ _ HV HF Hn Hidx) as (r & Hp & ->).
  pose proof (proc_not_cancelled _ _ _ _ _ _ Hp) as Hthr.
  assert (HX : 0 <= iX tri /\ 0 <= iY tri /\ 0 <= iZ tri).
  { unfold vertices in Hv. rewrite !Forall_cons in Hv. lia. }
  destruct HX as (HX & HY & HZ).
  destruct (proc_resolved pfn mesh eps thr eidx faceid c tri
              Hthr Hsq Hface Htri HX HY HZ Hcls) as [Hown Hr].
  fold cls in Hown, Hr. rewrite Hr in Hp. injection Hp as <-.
  destruct (unique_single (face_normal mesh <$> faces_around mesh cls))
    as (n & (f & -> & Hf)%list_elem_of_fmap & Hu).
  - intros Hnil%fmap_nil_inv. rewrite Hnil in Hown. by apply elem_of_nil in Hown.
  - intros a b (f & -> & Hf)%list_elem_of_fmap (g & -> & Hg)%list_elem_of_fmap.
    by apply Hflat.
  - exists f. split; [done|]. unfold resolved_normal.
    by rewrite <- unique_collapse, Hu.
Qed.

Lemma normals_flat_witness :
  exists f, f ∈ faces_around square_mesh (OnVertex 1)
    /\ [Some (Vec.mk 0 0 1)] !! 0%nat
       = Some (Some (mean [face_normal square_mesh f])).
Proof.
  refine (normals_flat (fun _ => Vec.mk 1 0 2) square_mesh 0.05
            (fun _ => false) [7%N] [Some (Vec.mk 0 0 1)] 0%nat 7%N 0
            (Vec.mk 1 0 0) (mkVec3i 0 1 2) _ _ _ _ _ _ _ _).
  - by vm_compute.
  - reflexivity.
  - reflexivity.
  - lia.
  - reflexivity.
  - unfold vertices. repeat constructor; by vm_compute.
  - by vm_compute.
  - intros f g Hf Hg. vm_compute in Hf, Hg.
    repeat (apply elem_of_cons in Hf as [->|Hf]);
      repeat (apply elem_of_cons in Hg as [->|Hg]);
      try (by apply elem_of_nil in Hf); try (by apply elem_of_nil in Hg);
      by vm_compute.
Defined.

(** ** A tolerance that is not positive *)

Lemma SFltb_abs_nonpos e d :
  SFltb (S754_zero false) e = false -> SFltb (SFabs d) e = false.
Proof.
  unfold SFltb, SFcompare.
  destruct e as [se|se| |se me ee], d as [sd|sd| |sd md ed]; sf_cases.
Qed.

Lemma float_ltb_abs_nonpos (e d : float) :
  (0 <? e)%float = false -> (abs d <? e)%float = false.
Proof.
  rewrite !FloatAxioms.ltb_spec, FloatAxioms.abs_spec. apply SFltb_abs_nonpos.
Qed.

(** X12.  With a tolerance [eps] that is not positive (zero, negative or
    NaN), no closest point counts as on a vertex or on an edge: for every
    query point with a closest face, [normals] writes the cross product of
    the two edges of that face at its first vertex, as it is. *)
Theorem normals_no_tolerance pfn mesh eps thr pt_indices ret ridx eidx faceid c :
  (0 <? eps)%float = false ->
  normals pfn mesh eps thr pt_indices = Done ret ->
  pt_indices !! ridx = Some eidx ->
  V mesh ≠ [] -> F mesh ≠ [] ->
  squared_distance mesh (pfn eidx) = (faceid, c) ->
  0 <= faceid ->
  let tri := rowF mesh faceid in
  let v0 := rowV mesh (iX tri) in
  let v1 := rowV mesh (iY tri) in
  let v2 := rowV mesh (iZ tri) in
  ret !! ridx = Some (Some (Vec.cross (Vec.sub v1 v0) (Vec.sub v2 v0))).
Proof.
  intros Heps Hn Hidx HV HF Hsq Hface tri v0 v1 v2.
  destruct (normals_lookup _ _ _ _ _ _ _ _ HV HF Hn Hidx) as (r & Hp & ->).
  f_equal. pose proof (proc_not_cancelled _ _ _ _ _ _ Hp) as Hthr.
  revert Hp. unfold proc. rewrite Hthr, Hsq.
  destruct (faceid <? 0) eqn:Hneg; [apply Z.ltb_lt in Hneg; lia|].
  fold tri. fold v0 v1 v2. unfold mark, point_on_edge.
  rewrite !float_ltb_abs_nonpos by done. simpl. by intros [= <-].
Qed.

Lemma normals_no_tolerance_witness :
  [Some (Vec.mk 0 0 1)] !! 0%nat = Some (Some (Vec.mk 0 0 1)).
Proof.
  refine (normals_no_tolerance (fun _ => Vec.mk 1 0 2) square_mesh 0
            (fun _ => false) [7%N] [Some (Vec.mk 0 0 1)] 0%nat 7%N 0
            (Vec.mk 1 0 0) _ _ _ _ _ _ _);
    try done; try lia; by vm_compute.
Defined.

(** ** A point that is not a number *)

(** X13.  One input point with a NaN coordinate keeps [cluster] from ever
    returning, under either strategy and for every [max_points]: the index
    cannot find such a point again to remove it, so the loop never sees
    the index empty. *)
Theorem cluster_nan_point fuel indices pointfn q max_points i :
  i ∈ indices -> Vec.eqb (pointfn i) (pointfn i) = false ->
  cluster fuel indices pointfn q max_points = None.
Proof.
  intros Hi Hnan. rewrite cluster_eq. unfold cluster_index.
  rewrite (clusters_loop_stuck _ _ (pointfn i, i)); [done| |].
  - rewrite build_index_eq. by apply (list_elem_of_fmap_2 (fun idx => (pointfn idx, idx))).
  - unfold storable, Index.equal_to. simpl. by rewrite Hnan.
Qed.

Lemma cluster_nan_point_witness :
  cluster 100 [0; 1; 2]%N
          (fun i => if (i =? 1)%N then Vec.mk nan 0 0 else three_points i)
          (ByDistance 1) 2
  = None.
Proof.
  apply (cluster_nan_point 100%nat [0; 1; 2]%N _ (ByDistance 1) 2 1%N).
  - by apply (bool_decide_unpack _).
  - by vm_compute.
Defined.

(** ** The distance of two points *)

Section Swap.

Variables prec emax : Z.

Lemma SFmul_opp x :
  SFmul prec emax (SFopp x) (SFopp x) = SFmul prec emax x x.
Proof. destruct x as [s|s| |s m e]; simpl; try done; by destruct s. Qed.

Lemma binary_round_aux_opp s m e l :
  binary_round_aux prec emax (negb s) m e l
  = SFopp (binary_round_aux prec emax s m e l).
Proof.
  unfold binary_round_aux.
  destruct (shr_fexp prec emax m e l) as [mrs' e'].
  destruct (shr_fexp prec emax _ e' loc_Exact) as [mrs'' e''].
  destruct (shr_m mrs''); [done| |done].
  by destruct (e'' <=? emax - prec).
Qed.

Lemma binary_round_opp s m e :
  binary_round prec emax (negb s) m e = SFopp (binary_round prec emax s m e).
Proof.
  unfold binary_round. destruct (shl_align m e _) as [mz ez].
  apply binary_round_aux_opp.
Qed.

Lemma binary_normalize_opp m e :
  m ≠ 0 ->
  binary_normalize prec emax (- m) e false
  = SFopp (binary_normalize prec emax m e false).
Proof.
  destruct m as [|m|m]; [done| |]; intros _; simpl.
  - apply (binary_round_opp false).
  - apply (binary_round_opp true).
Qed.

(** [y - x] is the opposite of [x - y], or both are [+0]. *)
Lemma SFsub_swap x y :
  SFsub prec emax y x = SFopp (SFsub prec emax x y)
  \/ (SFsub prec emax x y = S754_zero false
      /\ SFsub prec emax y x = S754_zero false).
Proof.
  destruct x as [sx|sx| |sx mx ex], y as [sy|sy| |sy my ey];
    try (left; simpl; by repeat match goal with b : bool |- _ => destruct b end);
    try (right; simpl; by repeat match goal with b : bool |- _ => destruct b end).
  - destruct sx, sy; simpl; auto.
  - unfold SFsub. rewrite (Z.min_comm ey ex).
    set (ez := Z.min ex ey).
    set (a := cond_Zopp sx (Z.pos (shl_align mx ex ez).1)).
    set (b := cond_Zopp sy (Z.pos (shl_align my ey ez).1)).
    destruct (decide (a - b = 0)) as [Hz|Hnz].
    + right. replace (b - a) with 0 by lia. by rewrite Hz.
    + left. replace (b - a) with (- (a - b)) by lia.
      by apply binary_normalize_opp.
Qed.

Lemma SFsub_square_swap x y :
  SFmul prec emax (SFsub prec emax x y) (SFsub prec emax x y)
  = SFmul prec emax (SFsub prec emax y x) (SFsub prec emax y x).
Proof.
  destruct (SFsub_swap x y) as [->|[-> ->]]; [|done]. by rewrite SFmul_opp.
Qed.

End Swap.

Lemma float_sub_square_swap (a b : float) :
  ((a - b) * (a - b))%float = ((b - a) * (b - a))%float.
Proof.
  apply Prim2SF_inj. rewrite !FloatAxioms.mul_spec, !FloatAxioms.sub_spec.
  apply SFsub_square_swap.
Qed.

(** X14.  [distance] does not depend on the order of its two points, for
    all doubles, and the distance of a point to itself is [0] or NaN. *)
Theorem distance_sym pp1 pp2 :
  distance pp1 pp2 = distance pp2 pp1
  /\ (distance pp1 pp1 = 0%float \/ distance pp1 pp1 = nan).
Proof.
  split.
  - unfold distance, Vec.dot, Vec.sub. simpl.
    by rewrite (float_sub_square_swap (Vec.x pp2)), (float_sub_square_swap (Vec.y pp2)),
      (float_sub_square_swap (Vec.z pp2)).
  - change (distance pp1 pp1)
      with (sqrt (Index.comparable_distance (pp1, 0%N).1 (pp1, 0%N))).
    destruct (comparable_distance_self (pp1, 0%N)) as [->| ->]; [by left|by right].
Qed.
